(** * GP interpolation in 1D with a custom kernel: the example script, embedded

    The script [examples/gpmp_example05_1d_custom_kernel.py] defines two mean
    functions ([zero_mean], [constant_mean]), a Matern covariance in three
    functions ([kernel_ii_or_tt], [kernel_it], [kernel]), builds a model and
    calls [model.predict], then zeroes the negative variances.

    Numbers.  The script computes with binary64 floats; here a float is a real
    number ([R]) and every operation is exact.  Rounding, NaN and infinities are
    outside the model, so an "approximately equal" of the specification is
    stated as an equality, or as a bound by the nugget.

    Arrays.  A two-dimensional array is the list of its rows; an array object
    also carries the identity that Python's [is] compares.

    The library.  [gp.eps] and the functions of [gp.kernel] that the script
    calls are not part of the script: they are the fields of the class [GpLib],
    and what a theorem needs of them is a hypothesis of that theorem.
    [gp.core.Model.predict] is modelled from the specification. *)

From Stdlib Require Import Reals Lra Lia List Bool Arith.
From Stdlib Require Import ClassicalDescription.
Import ListNotations.

Set Implicit Arguments.
Open Scope R_scope.

(* ================================================================= *)
(** ** Python values: exceptions, arrays, identity *)

(** The exceptions a call can end with. *)
Inductive exn : Type :=
| IndexError
| TypeError
| ValueError
| DimensionMismatch
| SingularSystem.

(** A call returns a value or raises. *)
Inductive result (A : Type) : Type :=
| Ok (a : A)
| Raise (e : exn).

Arguments Ok {A} a.
Arguments Raise {A} e.

Definition bind {A B : Type} (r : result A) (f : A -> result B) : result B :=
  match r with
  | Ok a => f a
  | Raise e => Raise e
  end.

Notation "x <- r ;; k" := (bind r (fun x => k))
  (at level 61, r at next level, right associativity).

Fixpoint mapM {A B : Type} (f : A -> result B) (l : list A) : result (list B) :=
  match l with
  | [] => Ok []
  | a :: l' => b <- f a ;; bs <- mapM f l' ;; Ok (b :: bs)
  end.

Definition vector := list R.
Definition matrix := list (list R).

(** A two-dimensional array object: [oid] is its identity, [ncols] is
    [shape[1]], [rows] its content; [shape[0]] is the number of rows. *)
Record ndarray : Type := mk_ndarray {
  oid : nat;
  ncols : nat;
  rows : matrix
}.

Definition shape0 (x : ndarray) : nat := length (rows x).

(** What a covariance function returns: an array of shape (n,) or (n, m). *)
Inductive array : Type :=
| Vec (v : vector)
| Mat (m : matrix).

(** The second argument of [kernel]: [None] or an array object. *)
Inductive pyarg : Type :=
| PyNone
| PyArr (a : ndarray).

(** [y is x] *)
Definition py_is (y : pyarg) (x : ndarray) : bool :=
  match y with
  | PyNone => false
  | PyArr a => Nat.eqb (oid a) (oid x)
  end.

(** [y is None] *)
Definition is_none (y : pyarg) : bool :=
  match y with
  | PyNone => true
  | PyArr _ => false
  end.

(** [param[i]] on a one-dimensional array.  An index outside the array raises
    here; every theorem below is about a vector that has the entries read. *)
Definition getitem (param : vector) (i : nat) : result R :=
  match nth_error param i with
  | Some v => Ok v
  | None => Raise IndexError
  end.

(* ================================================================= *)
(** ** Array operations of [jax.numpy] and [numpy] used by the script *)

Fixpoint map2 {A B C : Type} (f : A -> B -> C) (l : list A) (l' : list B) : list C :=
  match l, l' with
  | a :: t, b :: t' => f a b :: map2 f t t'
  | _, _ => []
  end.

(** [jnp.ones((n, ))] *)
Definition ones1 (n : nat) : vector := repeat 1 n.

(** [jnp.ones((n, m))] *)
Definition ones2 (n m : nat) : matrix := repeat (repeat 1 m) n.

(** [jnp.eye(n)] *)
Definition eye (n : nat) : matrix :=
  map (fun i => map (fun j => if Nat.eqb i j then 1 else 0) (seq 0 n)) (seq 0 n).

(** [a.shape[0]] *)
Definition array_shape0 (a : array) : nat :=
  match a with
  | Vec v => length v
  | Mat m => length m
  end.

(** [c * a] for a scalar [c]. *)
Definition smul (c : R) (a : array) : array :=
  match a with
  | Vec v => Vec (map (Rmult c) v)
  | Mat m => Mat (map (map (Rmult c)) m)
  end.

(** [u + v] on arrays of shape (n,).  Operands of different shapes raise:
    broadcasting between unequal shapes is not modelled, and no call of the
    script reaches it when the library returns the shapes its call sites
    document. *)
Definition vec_add (u v : vector) : result vector :=
  if Nat.eqb (length u) (length v) then Ok (map2 Rplus u v) else Raise ValueError.

Definition mat_add (a b : matrix) : result matrix :=
  if Nat.eqb (length a) (length b)
  then mapM (fun rr => vec_add (fst rr) (snd rr)) (combine a b)
  else Raise ValueError.

(** [a + b] *)
Definition add (a b : array) : result array :=
  match a, b with
  | Vec u, Vec v => w <- vec_add u v ;; Ok (Vec w)
  | Mat m, Mat m' => w <- mat_add m m' ;; Ok (Mat w)
  | _, _ => Raise ValueError
  end.

(** [np.maximum(v, c)] for a scalar [c]. *)
Definition np_maximum (v : vector) (c : R) : vector := map (fun e => Rmax e c) v.

(** Entry (i, j), column j, the transpose of a matrix with [m] columns, and
    the diagonal. *)
Definition entry (a : matrix) (i j : nat) : R := nth j (nth i a []) 0.

Definition col (j : nat) (a : matrix) : vector := map (fun r => nth j r 0) a.

Definition transpose (m : nat) (a : matrix) : matrix := map (fun j => col j a) (seq 0 m).

Definition diag (a : matrix) : vector := map (fun i => entry a i i) (seq 0 (length a)).

Definition symmetric (a : matrix) : Prop := transpose (length a) a = a.

(** An n x m matrix. *)
Definition has_shape (n m : nat) (a : matrix) : Prop :=
  length a = n /\ Forall (fun r => length r = m) a.

(* ================================================================= *)
(** ** The part of the [gp] library the kernel calls *)

(** [gp.eps] and the functions of [gp.kernel].  [maternp] is the Matern
    profile; [gp.kernel.maternp_kernel(p, h)] applies it to every entry of the
    array [h] of distances. *)
Class GpLib : Type := {
  gp_eps : R;
  scale : matrix -> R -> matrix;
  distance : matrix -> matrix -> matrix;
  distance_pairwise : matrix -> matrix -> vector;
  maternp : nat -> R -> R
}.

(** What the script relies on, each property a hypothesis where it is used.
    The shapes are the ones written at the call sites ("nx x nx", "nx x ny",
    "nx x 0"). *)
Definition scale_keeps_rows (L : GpLib) : Prop :=
  forall x r, length (scale x r) = length x.

Definition distance_shape (L : GpLib) : Prop :=
  forall a b, length (distance a b) = length a /\
              Forall (fun r => length r = length b) (distance a b).

Definition distance_pairwise_shape (L : GpLib) : Prop :=
  forall a b, length a = length b -> length (distance_pairwise a b) = length a.

Definition distance_symmetric (L : GpLib) : Prop :=
  forall a, symmetric (distance a a).

Definition distance_zero_diag (L : GpLib) : Prop :=
  forall a i, (i < length a)%nat -> entry (distance a a) i i = 0.

Definition maternp_one_at_zero (L : GpLib) : Prop :=
  maternp 2 0 = 1.

(* ================================================================= *)
(** ** The script: mean functions and kernel *)

Section Script.

Context {L : GpLib}.

(** [gp.kernel.maternp_kernel(p, h)] *)
Definition maternp_kernel (p : nat) (h : array) : array :=
  match h with
  | Vec v => Vec (map (maternp p) v)
  | Mat m => Mat (map (map (maternp p)) m)
  end.

(** [def zero_mean(x, param): return None] *)
Definition zero_mean {P : Type} (x : ndarray) (param : P) : option matrix := None.

(** [def constant_mean(x, param): return jnp.ones((x.shape[0], 1))] *)
Definition constant_mean {P : Type} (x : ndarray) (param : P) : option matrix :=
  Some (ones2 (shape0 x) 1).

(** Covariance between observations or predictands at x. *)
Definition kernel_ii_or_tt (x : ndarray) (param : vector) (pairwise : bool)
  : result array :=
  let p := 2%nat in
  p0 <- getitem param 0 ;;
  let sigma2 := exp p0 in
  p1 <- getitem param 1 ;;
  let invrho := exp p1 in
  let nugget := 100 * gp_eps in
  if pairwise then
    Ok (smul sigma2 (Vec (ones1 (shape0 x))))
  else
    let xs := scale (rows x) invrho in
    let K := Mat (distance xs xs) in
    add (smul sigma2 (maternp_kernel p K)) (smul nugget (Mat (eye (array_shape0 K)))).

(** Covariance between observations and prediction points. *)
Definition kernel_it (x y : ndarray) (param : vector) (pairwise : bool)
  : result array :=
  let p := 2%nat in
  p0 <- getitem param 0 ;;
  let sigma2 := exp p0 in
  p1 <- getitem param 1 ;;
  let invrho := exp p1 in
  let xs := scale (rows x) invrho in
  let ys := scale (rows y) invrho in
  let K := if pairwise then Vec (distance_pairwise xs ys) else Mat (distance xs ys) in
  Ok (smul sigma2 (maternp_kernel p K)).

(** [if y is x or y is None: ... else: ...].  In the else branch [y] is an
    array; the [PyNone] case of the match is not reachable. *)
Definition kernel (x : ndarray) (y : pyarg) (param : vector) (pairwise : bool)
  : result array :=
  if py_is y x || is_none y then
    kernel_ii_or_tt x param pairwise
  else
    match y with
    | PyArr y' => kernel_it x y' param pairwise
    | PyNone => Raise TypeError
    end.

(** [covparam = jnp.array([math.log(0.5**2), math.log(1 / .7)])] *)
Definition covparam : vector := [ln (0.5 ^ 2); ln (1 / 0.7)].

(** The two matrices the kernel computes, as expressions of the decoded
    parameters; the theorems relate them to what the functions return.
    [cross_cov] is sigma2 * maternp_kernel(p, distance(xs, ys)) and [self_cov]
    adds nugget * eye(n) to it for ys = xs. *)
Definition cross_cov (p : nat) (x y : matrix) (sigma2 invrho : R) : matrix :=
  map (map (Rmult sigma2))
      (map (map (maternp p)) (distance (scale x invrho) (scale y invrho))).

Definition self_cov (p : nat) (x : matrix) (sigma2 invrho nugget : R) : matrix :=
  map2 (map2 Rplus)
       (cross_cov p x x sigma2 invrho)
       (map (map (Rmult nugget))
            (eye (length (distance (scale x invrho) (scale x invrho))))).

End Script.

(* ================================================================= *)
(** ** The model object and the prediction *)

(** [gp.core.Model(mean, kernel, meanparam, covparam)]: the four values the
    constructor receives. *)
Record Model (P : Type) : Type := mk_Model {
  model_mean : ndarray -> P -> option matrix;
  model_kernel : ndarray -> pyarg -> vector -> bool -> result array;
  model_meanparam : P;
  model_covparam : vector
}.

(** Inner product, matrix-vector product, zero vector, [shape[1]] of a basis
    matrix. *)
Definition dot (u v : vector) : R := fold_right Rplus 0 (map2 Rmult u v).

Definition mat_vec (a : matrix) (x : vector) : vector := map (fun r => dot r x) a.

Definition zeros (n : nat) : vector := repeat 0 n.

Definition width (a : matrix) : nat :=
  match a with
  | [] => 0%nat
  | r :: _ => length r
  end.

(** The j-th vector of the canonical basis of dimension n. *)
Definition unit_vec (n j : nat) : vector :=
  map (fun i => if Nat.eqb i j then 1 else 0) (seq 0 n).

(** Modelled from the spec: the block matrix [[K P] [P^T 0]] of the kriging
    system with an unknown mean, of size (n+q) x (n+q). *)
Definition block (K Pi : matrix) : matrix :=
  map2 (@app R) K Pi ++ map (fun c => c ++ zeros (width Pi)) (transpose (width Pi) Pi).

(** [x] solves the square system [a x = b]. *)
Definition solves (a : matrix) (b x : vector) : Prop :=
  length x = length a /\ mat_vec a x = b.

(** A system is nonsingular when every right-hand side has one solution. *)
Definition nonsingular (a : matrix) : Prop :=
  forall b, length b = length a -> exists! x, solves a b x.

(** Modelled from the spec: the linear solve of the predictor in exact
    arithmetic.  It returns the solution when there is exactly one and fails
    with [SingularSystem] otherwise. *)
Definition lin_solve (a : matrix) (b : vector) : result vector :=
  match excluded_middle_informative (exists! x, solves a b x) with
  | left H => Ok (proj1_sig (constructive_definite_description _ H))
  | right _ => Raise SingularSystem
  end.

Definition as_mat (r : result array) : result matrix :=
  a <- r ;;
  match a with
  | Mat m => Ok m
  | Vec _ => Raise ValueError
  end.

Definition as_vec (r : result array) : result vector :=
  a <- r ;;
  match a with
  | Vec v => Ok v
  | Mat _ => Raise ValueError
  end.

(** Modelled from the spec: [gp.core.Model.predict], which is not among the
    sources.  The lengths and the point dimensions are compared first.  Then
    K = kernel(xi, xi), k = kernel(xi, xt) and the prior variances
    k_tt = kernel(xt, xt, pairwise=True) are evaluated, and the case is chosen
    by what the mean function returns:
    - [None] (simple kriging, zero mean): solve K alpha = zi,
      zpm = k^T alpha, and for each target column c of k solve K v = c,
      zpv = k_tt - c^T v;
    - a basis P (unknown mean): solve [[K P] [P^T 0]] [alpha; beta] = [zi; 0],
      zpm = k^T alpha + Pt beta, and for each target the column
      c = [k(xi, x); Pt(x)] is solved against the block system,
      zpv = k_tt - c^T v.
    The solver is an argument, so that a statement can range over every
    solver. *)
Definition predict_with (solve : matrix -> vector -> result vector)
    {P : Type} (model : Model P) (xi : ndarray) (zi : vector) (xt : ndarray)
  : result (vector * vector) :=
  if negb (Nat.eqb (shape0 xi) (length zi)) || negb (Nat.eqb (ncols xi) (ncols xt))
  then Raise DimensionMismatch
  else
    let cp := model_covparam model in
    let mp := model_meanparam model in
    K <- as_mat (model_kernel model xi (PyArr xi) cp false) ;;
    k <- as_mat (model_kernel model xi (PyArr xt) cp false) ;;
    ktt <- as_vec (model_kernel model xt (PyArr xt) cp true) ;;
    let kT := transpose (shape0 xt) k in
    match model_mean model xi mp with
    | None =>
        alpha <- solve K zi ;;
        let zpm := mat_vec kT alpha in
        red <- mapM (fun c => v <- solve K c ;; Ok (dot c v)) kT ;;
        Ok (zpm, map2 Rminus ktt red)
    | Some Pi =>
        match model_mean model xt mp with
        | None => Raise TypeError
        | Some Pt =>
            let M := block K Pi in
            ab <- solve M (zi ++ zeros (width Pi)) ;;
            let alpha := firstn (shape0 xi) ab in
            let beta := skipn (shape0 xi) ab in
            zpm <- vec_add (mat_vec kT alpha) (mat_vec Pt beta) ;;
            red <- mapM (fun c => v <- solve M c ;; Ok (dot c v)) (map2 (@app R) kT Pt) ;;
            Ok (zpm, map2 Rminus ktt red)
        end
    end.

(** Modelled from the spec: [predict] with the exact linear solve. *)
Definition predict {P : Type} (model : Model P) (xi : ndarray) (zi : vector)
    (xt : ndarray) : result (vector * vector) :=
  predict_with lin_solve model xi zi xt.

(** [mean = constant_mean], [meanparam = None],
    [model = gp.core.Model(mean, kernel, meanparam, covparam)] *)
Definition model {L : GpLib} : Model pyarg :=
  {| model_mean := constant_mean;
     model_kernel := kernel;
     model_meanparam := PyNone;
     model_covparam := covparam |}.

(** [(zpm, zpv) = model.predict(xi, zi, xt)] followed by
    [zpv = np.maximum(zpv, 0)]. *)
Definition prediction {L : GpLib} (xi : ndarray) (zi : vector) (xt : ndarray)
  : result (vector * vector) :=
  r <- predict model xi zi xt ;;
  Ok (fst r, np_maximum (snd r) 0).

(* ================================================================= *)
(** ** A reference instance of the library *)

(** Modelled from the spec: the squared Euclidean distance between two
    points, and the distance. *)
Definition sq_dist (a b : list R) : R :=
  fold_right Rplus 0 (map2 (fun u v => (u - v) * (u - v)) a b).

Definition euclid (a b : list R) : R := sqrt (sq_dist a b).

(** Modelled from the spec: the Matern correlation of regularity p + 1/2 at
    distance h, exp(-t) * p!/(2p)! * sum_i (p+i)!/(i! (p-i)!) * (2t)^(p-i)
    with t = sqrt(2p+1) * h. *)
Definition matern_ref (p : nat) (h : R) : R :=
  let t := sqrt (INR (2 * p + 1)) * h in
  exp (- t) * (INR (fact p) / INR (fact (2 * p))) *
  sum_f_R0 (fun i => INR (fact (p + i)) / (INR (fact i) * INR (fact (p - i)))
                     * (2 * t) ^ (p - i)) p.

(** Modelled from the spec: an isotropic stationary Matern covariance on
    inputs scaled by invrho, with the Euclidean distance, for a machine
    epsilon [eps].  It instantiates the library where a statement is
    evaluated at a concrete input. *)
Definition reference_lib (eps : R) : GpLib :=
  {| gp_eps := eps;
     scale := fun x invrho => map (map (Rmult invrho)) x;
     distance := fun a b => map (fun u => map (euclid u) b) a;
     distance_pairwise := fun a b => map2 euclid a b;
     maternp := matern_ref |}.

(** The machine epsilon of binary64 and of binary32 floats. *)
Definition eps64 : R := / 2 ^ 52.

Definition eps32 : R := / 2 ^ 23.

(** Two values agree within a factor [f] (both positive). *)
Definition within_factor (f a b : R) : Prop := b / f <= a <= b * f.

(** Concrete inputs: the three training points of the specification's
    scenario, a second array object with the same content, a single point. *)
Definition x3 : ndarray := mk_ndarray 0 1 [[-0.5]; [0]; [0.5]].

Definition y3 : ndarray := mk_ndarray 1 1 [[-0.5]; [0]; [0.5]].

Definition x1 : ndarray := mk_ndarray 0 1 [[0]].

(* ================================================================= *)
(** ** Further properties of the distance functions *)

(** The distance matrix of [b] against [a] is the transpose of the one of
    [a] against [b]. *)
Definition distance_transposes (L : GpLib) : Prop :=
  forall a b, transpose (length b) (distance a b) = distance b a.

(** [distance_pairwise] gives the distances of the aligned pairs, which are
    the diagonal of the distance matrix. *)
Definition distance_pairwise_diag (L : GpLib) : Prop :=
  forall a b, length a = length b -> distance_pairwise a b = diag (distance a b).

(* ================================================================= *)
(** ** The dataset: [generate_data] *)

(** [gp.misc.designs.regulargrid] and [gp.misc.testfunctions.twobumps], which
    are not part of the script.  The functions return the content of the
    array they build. *)
Class GpMisc : Type := {
  regulargrid : nat -> nat -> matrix -> matrix;
  twobumps : matrix -> vector
}.

(** In dimension 1 the grid has shape (nt, 1), as the comment in
    [generate_data] gives it
    ([np.expand_dims(np.linspace(-1, 1, nt), axis=1)]); the test function has
    one value per point. *)
Definition regulargrid_shape (M : GpMisc) : Prop :=
  forall nt box, has_shape nt 1 (regulargrid 1 nt box).

Definition twobumps_shape (M : GpMisc) : Prop :=
  forall x, length (twobumps x) = length x.

(** What [np.random.choice(nt, ni, replace=False)] can return: [ni] indices
    below [nt], no index twice. *)
Definition choice_outcome (nt ni : nat) (ind : list nat) : Prop :=
  length ind = ni /\ NoDup ind /\ Forall (fun i => (i < nt)%nat) ind.

(** [x[ind]] for a list of indices: the selected entries, in the order of
    [ind].  An index outside the array raises here; the draws of
    [choice_outcome] are inside. *)
Definition take {A : Type} (x : list A) (ind : list nat) : result (list A) :=
  mapM (fun i => match nth_error x i with
                 | Some e => Ok e
                 | None => Raise IndexError
                 end) ind.

(** A new array object: it receives the next identity. *)
Definition alloc (c : nat) (content : matrix) (next : nat) : ndarray * nat :=
  (mk_ndarray next c content, S next).

(** [generate_data()].  [draw] is what the call of [np.random.choice]
    returns and [next] the identity the next new array receives; the result
    is (xt, zt, xi, zi) with the identity counter after the call. *)
Definition generate_data {M : GpMisc} (draw : list nat) (next : nat)
  : result (ndarray * vector * ndarray * vector * nat) :=
  let dim := 1%nat in
  let nt := 200%nat in
  let box := [[-1]; [1]] in
  let (xt, next1) := alloc dim (regulargrid dim nt box) next in
  let zt := twobumps (rows xt) in
  let shuffle := true in
  let ind := if shuffle then draw else [10; 45; 100; 130; 160]%nat in
  xi_rows <- take (rows xt) ind ;;
  let (xi, next2) := alloc (ncols xt) xi_rows next1 in
  zi <- take zt ind ;;
  Ok (xt, zt, xi, zi, next2).

(** A reference instance: the grid of the comment in [generate_data], from
    the first to the second row of [box], and a test function with one value
    per point. *)
Definition linspace_grid (nt : nat) (box : matrix) : matrix :=
  map (fun k => [entry box 0 0
                 + (entry box 1 0 - entry box 0 0) * INR k / INR (nt - 1)])
      (seq 0 nt).

Definition reference_misc : GpMisc :=
  {| regulargrid := fun dim nt box => linspace_grid nt box;
     twobumps := fun x => map (fun r => exp (- (nth 0 r 0 - 0.5) ^ 2)
                                        + exp (- (nth 0 r 0 + 0.5) ^ 2)) x |}.

(** The indices of the branch without shuffling, one possible draw. *)
Definition draw5 : list nat := [10; 45; 100; 130; 160]%nat.

(* ================================================================= *)
(** ** A second instance of the library, with a regularised distance *)

(** The Matern correlation of regularity 5/2 as a function of the reduced
    distance t. *)
Definition matern52 (t : R) : R := exp (- t) * (1 + t + t ^ 2 / 3).

(** The Matern correlation of regularity p + 1/2 with the reduced distance
    t = 2 * sqrt(p + 1/2) * h. *)
Definition matern_stk (p : nat) (h : R) : R := matern_ref p (sqrt 2 * h).

(** The distance regularised under the square root,
    sqrt(alpha + |u - v|^2): from a point to itself it is sqrt(alpha), not 0. *)
Definition reg_dist (alpha : R) (u v : list R) : R := sqrt (alpha + sq_dist u v).

(** An instance whose distance matrix has sqrt(alpha) on the diagonal.  The
    theorems that take only shapes and symmetry as hypotheses apply to it. *)
Definition regularized_lib (eps alpha : R) : GpLib :=
  {| gp_eps := eps;
     scale := fun x invrho => map (map (Rmult invrho)) x;
     distance := fun a b => map (fun u => map (reg_dist alpha u) b) a;
     distance_pairwise := fun a b => map2 (reg_dist alpha) a b;
     maternp := matern_stk |}.

(** The regularisation used at the concrete inputs. *)
Definition alpha8 : R := 1e-8.

(** Two training points. *)
Definition x2 : ndarray := mk_ndarray 0 1 [[0]; [0.5]].

(* ================================================================= *)
(** ** Lists, entries and shapes *)

Section Lists.

Variables A B C : Type.

Lemma map2_length (f : A -> B -> C) (l : list A) (l' : list B) :
  length l = length l' -> length (map2 f l l') = length l.
Proof.
  revert l'; induction l as [|a l IH]; intros [|b l'] H; simpl in *; try congruence.
  f_equal; apply IH; congruence.
Qed.

Lemma map2_nth (f : A -> B -> C) (l : list A) (l' : list B) i da db dc :
  (i < length l)%nat -> (i < length l')%nat ->
  nth i (map2 f l l') dc = f (nth i l da) (nth i l' db).
Proof.
  revert l l'; induction i as [|i IH]; intros [|a l] [|b l'] H H'; simpl in *; try lia.
  - reflexivity.
  - apply IH; lia.
Qed.

Lemma map2_repeat (f : A -> B -> C) (a : A) (b : B) (n : nat) :
  map2 f (repeat a n) (repeat b n) = repeat (f a b) n.
Proof. induction n as [|n IH]; simpl; congruence. Qed.

Lemma nth_map_default (f : A -> B) (l : list A) j d d' :
  f d = d' -> nth j (map f l) d' = f (nth j l d).
Proof. intros <-. apply map_nth. Qed.

Lemma map_const_repeat (c : B) (l : list A) :
  map (fun _ => c) l = repeat c (length l).
Proof. induction l as [|a l IH]; simpl; congruence. Qed.

(** A list of computations that all return, the i-th one returning [g i]. *)
Lemma mapM_nth (f : A -> result B) (g : nat -> B) (l : list A) (d : A) :
  (forall i, (i < length l)%nat -> f (nth i l d) = Ok (g i)) ->
  mapM f l = Ok (map g (seq 0 (length l))).
Proof.
  revert g; induction l as [|a l IH]; intros g H; simpl; [reflexivity|].
  assert (H0 := H 0%nat (Nat.lt_0_succ _)). simpl in H0. rewrite H0. simpl.
  rewrite (IH (fun i => g (S i))).
  - simpl. rewrite <- seq_shift, map_map. reflexivity.
  - intros i Hi. apply (H (S i)). simpl; lia.
Qed.

End Lists.

Section Shapes.

Lemma has_shape_row n m (a : matrix) i :
  has_shape n m a -> (i < n)%nat -> length (nth i a []) = m.
Proof.
  intros [Hn Hf] Hi. rewrite Forall_forall in Hf.
  apply Hf, nth_In. lia.
Qed.

Lemma has_shape_map n m (f : R -> R) (a : matrix) :
  has_shape n m a -> has_shape n m (map (map f) a).
Proof.
  intros [Hn Hf]; split; [now rewrite length_map|].
  rewrite Forall_forall in *. intros r Hr.
  apply in_map_iff in Hr as [r' [<- Hr']]. rewrite length_map. auto.
Qed.

Lemma eye_shape n : has_shape n n (eye n).
Proof.
  unfold eye; split; [now rewrite length_map, length_seq|].
  rewrite Forall_forall. intros r Hr.
  apply in_map_iff in Hr as [i [<- _]]. now rewrite length_map, length_seq.
Qed.

Lemma entry_map (f : R -> R) (a : matrix) n m i j :
  has_shape n m a -> (i < n)%nat -> (j < m)%nat ->
  entry (map (map f) a) i j = f (entry a i j).
Proof.
  intros Ha Hi Hj. unfold entry.
  assert (Hr := has_shape_row Ha Hi).
  rewrite (nth_indep _ [] (map f [])) by (rewrite length_map; destruct Ha; lia).
  rewrite map_nth.
  rewrite (nth_indep _ 0 (f 0)) by (rewrite length_map; lia).
  now rewrite map_nth.
Qed.

Lemma entry_eye n i j :
  (i < n)%nat -> (j < n)%nat -> entry (eye n) i j = if Nat.eqb i j then 1 else 0.
Proof.
  intros Hi Hj. unfold entry, eye.
  rewrite (nth_indep _ [] ((fun i => map (fun j => if Nat.eqb i j then 1 else 0) (seq 0 n)) 0%nat))
    by (now rewrite length_map, length_seq).
  rewrite (map_nth (fun i => map (fun j => if Nat.eqb i j then 1 else 0) (seq 0 n))).
  rewrite seq_nth by assumption. simpl.
  rewrite (nth_indep _ 0 ((fun j => if Nat.eqb i j then 1 else 0) 0%nat))
    by (now rewrite length_map, length_seq).
  rewrite (map_nth (fun j => if Nat.eqb i j then 1 else 0)).
  now rewrite seq_nth by assumption.
Qed.

Lemma entry_map2 (f : R -> R -> R) (a b : matrix) n m i j :
  has_shape n m a -> has_shape n m b -> (i < n)%nat -> (j < m)%nat ->
  entry (map2 (map2 f) a b) i j = f (entry a i j) (entry b i j).
Proof.
  intros Ha Hb Hi Hj. unfold entry.
  assert (Hra := has_shape_row Ha Hi). assert (Hrb := has_shape_row Hb Hi).
  destruct Ha as [Hna _], Hb as [Hnb _].
  rewrite (map2_nth _ _ _ [] [] []) by lia.
  apply map2_nth; lia.
Qed.

Lemma map2_shape (f : R -> R -> R) (a b : matrix) n m :
  has_shape n m a -> has_shape n m b -> has_shape n m (map2 (map2 f) a b).
Proof.
  intros [Hna Hfa] [Hnb Hfb]; split.
  - rewrite map2_length; congruence.
  - clear Hna Hnb. revert b Hfb; induction Hfa as [|r a Hr Hfa IH]; intros [|r' b] Hfb;
      simpl; constructor.
    + inversion Hfb; subst. rewrite map2_length; congruence.
    + inversion Hfb; subst. now apply IH.
Qed.

Lemma entry_transpose (a : matrix) m i j :
  (i < m)%nat -> entry (transpose m a) i j = entry a j i.
Proof.
  intros Hi. unfold entry, transpose.
  rewrite (nth_indep _ [] ((fun j => col j a) 0%nat)) by (now rewrite length_map, length_seq).
  rewrite (map_nth (fun j => col j a)), seq_nth by assumption. simpl.
  unfold col.
  apply (nth_map_default (fun r : list R => nth i r 0)).
  destruct i; reflexivity.
Qed.

Lemma transpose_shape (a : matrix) m : has_shape m (length a) (transpose m a).
Proof.
  unfold transpose; split; [now rewrite length_map, length_seq|].
  rewrite Forall_forall. intros r Hr.
  apply in_map_iff in Hr as [j [<- _]]. unfold col. now rewrite length_map.
Qed.

(** Two matrices of one shape with the same entries are equal. *)
Lemma mat_ext (a b : matrix) n m :
  has_shape n m a -> has_shape n m b ->
  (forall i j, (i < n)%nat -> (j < m)%nat -> entry a i j = entry b i j) -> a = b.
Proof.
  intros Ha Hb H.
  apply (nth_ext a b [] []).
  - destruct Ha, Hb; congruence.
  - intros i Hi. assert (Hi' : (i < n)%nat) by (destruct Ha; lia).
    apply (nth_ext _ _ 0 0).
    + rewrite (has_shape_row Ha Hi'), (has_shape_row Hb Hi'). reflexivity.
    + intros j Hj. rewrite (has_shape_row Ha Hi') in Hj. apply (H i j); assumption.
Qed.

Lemma symmetric_shape (a : matrix) : symmetric a -> has_shape (length a) (length a) a.
Proof.
  intros H. unfold symmetric in H. rewrite <- H at 3. apply transpose_shape.
Qed.

Lemma symmetric_entry (a : matrix) i j :
  symmetric a -> (i < length a)%nat -> entry a i j = entry a j i.
Proof.
  intros H Hi. unfold symmetric in H. rewrite <- H at 1. now apply entry_transpose.
Qed.

Lemma symmetric_intro (a : matrix) n :
  has_shape n n a ->
  (forall i j, (i < n)%nat -> (j < n)%nat -> entry a i j = entry a j i) -> symmetric a.
Proof.
  intros Ha H. unfold symmetric.
  assert (Hn : length a = n) by (destruct Ha; assumption).
  rewrite Hn. apply (@mat_ext _ _ n n).
  - rewrite <- Hn at 2. apply transpose_shape.
  - assumption.
  - intros i j Hi Hj. rewrite entry_transpose by assumption. now apply H.
Qed.

Lemma mat_add_ok (a b : matrix) n m :
  has_shape n m a -> has_shape n m b -> mat_add a b = Ok (map2 (map2 Rplus) a b).
Proof.
  intros [Hna Hfa] [Hnb Hfb]. unfold mat_add.
  replace (Nat.eqb (length a) (length b)) with true by (symmetry; apply Nat.eqb_eq; congruence).
  clear Hna Hnb. revert b Hfb; induction Hfa as [|r a Hr Hfa IH]; intros [|r' b] Hfb;
    simpl; try reflexivity.
  inversion Hfb; subst. unfold vec_add at 1.
  replace (Nat.eqb (length r) (length r')) with true by (symmetry; apply Nat.eqb_eq; congruence).
  simpl. rewrite IH by assumption. reflexivity.
Qed.

End Shapes.

(* ================================================================= *)
(** ** The mean functions *)

(** C8.  For every point set [x] with n rows and every parameter,
    [constant_mean] returns a basis matrix of shape (n, 1) whose entries are
    all 1, and [zero_mean] returns [None]. *)
Theorem mean_functions_contract (P : Type) (x : ndarray) (param : P) :
  (exists Pi, constant_mean x param = Some Pi /\
              has_shape (shape0 x) 1 Pi /\
              Forall (fun r => r = [1]) Pi) /\
  zero_mean x param = None.
Proof.
  split; [|reflexivity].
  exists (ones2 (shape0 x) 1). split; [reflexivity|].
  unfold ones2, has_shape. rewrite repeat_length. split; [split; [reflexivity|]|].
  - apply Forall_forall. intros r Hr. apply repeat_spec in Hr. now subst.
  - apply Forall_forall. intros r Hr. apply repeat_spec in Hr. now subst.
Qed.

(* ================================================================= *)
(** ** The clamp of the variances *)

Lemma Rmax_0_nonneg (e : R) : 0 <= Rmax e 0.
Proof. apply Rmax_r. Qed.

(** C6.  After [zpv = np.maximum(zpv, 0)] every entry is at least 0: the array
    keeps its length, a negative entry has become 0 and any other entry is
    unchanged; no input makes the step fail. *)
Theorem clamp_nonnegative (zpv : vector) :
  Forall (fun e => 0 <= e) (np_maximum zpv 0) /\
  length (np_maximum zpv 0) = length zpv /\
  forall i, (i < length zpv)%nat ->
    (nth i zpv 0 < 0 -> nth i (np_maximum zpv 0) 0 = 0) /\
    (0 <= nth i zpv 0 -> nth i (np_maximum zpv 0) 0 = nth i zpv 0).
Proof.
  unfold np_maximum. split; [|split].
  - apply Forall_forall. intros e He.
    apply in_map_iff in He as [e' [<- _]]. apply Rmax_0_nonneg.
  - apply length_map.
  - intros i Hi.
    assert (E : nth i (map (fun e => Rmax e 0) zpv) 0 = Rmax (nth i zpv 0) 0).
    { apply (nth_map_default (fun e => Rmax e 0)). apply Rmax_left. lra. }
    rewrite E. split; intros H.
    + apply Rmax_right. lra.
    + apply Rmax_left. exact H.
Qed.

(* ================================================================= *)
(** ** The kernel: what each branch returns *)

Section KernelFacts.

Context {L : GpLib}.

Variables (x : ndarray) (a b : R) (rest : vector).

Lemma kernel_ii_pairwise :
  kernel_ii_or_tt x (a :: b :: rest) true = Ok (Vec (repeat (exp a) (shape0 x))).
Proof.
  unfold kernel_ii_or_tt, ones1; simpl. do 2 f_equal.
  induction (shape0 x) as [|n IH]; simpl; [reflexivity|].
  rewrite IH. f_equal. apply Rmult_1_r.
Qed.

Lemma kernel_ii_full :
  distance_shape L ->
  kernel_ii_or_tt x (a :: b :: rest) false =
  Ok (Mat (self_cov 2 (rows x) (exp a) (exp b) (100 * gp_eps))).
Proof.
  intros Hd. unfold kernel_ii_or_tt, self_cov; simpl.
  set (xs := scale (rows x) (exp b)).
  assert (HD : has_shape (length xs) (length xs) (distance xs xs)) by apply Hd.
  assert (Hn : length (distance xs xs) = length xs) by apply HD.
  rewrite (@mat_add_ok _ _ (length xs) (length xs)); [reflexivity| |].
  - now do 2 apply has_shape_map.
  - apply has_shape_map. rewrite Hn. apply eye_shape.
Qed.

Lemma kernel_it_value (y : ndarray) (pairwise : bool) :
  kernel_it x y (a :: b :: rest) pairwise =
  Ok (if pairwise
      then Vec (map (fun d => exp a * maternp 2 d)
                    (distance_pairwise (scale (rows x) (exp b)) (scale (rows y) (exp b))))
      else Mat (cross_cov 2 (rows x) (rows y) (exp a) (exp b))).
Proof.
  unfold kernel_it, cross_cov; simpl. destruct pairwise; simpl; [|reflexivity].
  now rewrite map_map.
Qed.

Lemma self_cov_shape (p : nat) (s r g : R) (pts : matrix) :
  distance_shape L ->
  has_shape (length (scale pts r)) (length (scale pts r)) (self_cov p pts s r g).
Proof.
  intros Hd. unfold self_cov, cross_cov. set (xs := scale pts r).
  assert (HD : has_shape (length xs) (length xs) (distance xs xs)) by apply Hd.
  apply map2_shape.
  - now do 2 apply has_shape_map.
  - apply has_shape_map. replace (length (distance xs xs)) with (length xs) by (symmetry; apply HD).
    apply eye_shape.
Qed.

Lemma self_cov_entry (p : nat) (s r g : R) (pts : matrix) i j :
  distance_shape L ->
  (i < length (scale pts r))%nat -> (j < length (scale pts r))%nat ->
  entry (self_cov p pts s r g) i j =
  s * maternp p (entry (distance (scale pts r) (scale pts r)) i j)
  + g * (if Nat.eqb i j then 1 else 0).
Proof.
  intros Hd Hi Hj. unfold self_cov, cross_cov. set (xs := scale pts r) in *.
  assert (HD : has_shape (length xs) (length xs) (distance xs xs)) by apply Hd.
  assert (Hn : length (distance xs xs) = length xs) by apply HD.
  rewrite Hn.
  assert (HM := has_shape_map (maternp p) HD).
  assert (HS := has_shape_map (Rmult s) HM).
  assert (HE := eye_shape (length xs)).
  assert (HG := has_shape_map (Rmult g) HE).
  rewrite (entry_map2 Rplus HS HG Hi Hj).
  rewrite (entry_map (Rmult s) HM Hi Hj), (entry_map (maternp p) HD Hi Hj).
  rewrite (entry_map (Rmult g) HE Hi Hj), entry_eye by assumption.
  reflexivity.
Qed.

Lemma cross_cov_shape (p : nat) (s r : R) (pts pts' : matrix) :
  distance_shape L ->
  has_shape (length (scale pts r)) (length (scale pts' r)) (cross_cov p pts pts' s r).
Proof.
  intros Hd. unfold cross_cov. do 2 apply has_shape_map. apply Hd.
Qed.

Lemma cross_cov_entry (p : nat) (s r : R) (pts pts' : matrix) i j :
  distance_shape L ->
  (i < length (scale pts r))%nat -> (j < length (scale pts' r))%nat ->
  entry (cross_cov p pts pts' s r) i j =
  s * maternp p (entry (distance (scale pts r) (scale pts' r)) i j).
Proof.
  intros Hd Hi Hj. unfold cross_cov.
  assert (HD : has_shape (length (scale pts r)) (length (scale pts' r))
                 (distance (scale pts r) (scale pts' r))) by apply Hd.
  assert (HM := has_shape_map (maternp p) HD).
  now rewrite (entry_map (Rmult s) HM Hi Hj), (entry_map (maternp p) HD Hi Hj).
Qed.

Lemma self_cov_symmetric (p : nat) (s r g : R) (pts : matrix) :
  distance_shape L -> distance_symmetric L -> symmetric (self_cov p pts s r g).
Proof.
  intros Hd Hsym. set (xs := scale pts r).
  apply (@symmetric_intro _ (length xs)).
  - now apply self_cov_shape.
  - intros i j Hi Hj. rewrite !self_cov_entry by assumption. fold xs.
    assert (Hn : length (distance xs xs) = length xs) by apply Hd.
    rewrite (symmetric_entry (a := distance xs xs) (i := i) j) by (try apply Hsym; lia).
    now rewrite (Nat.eqb_sym i j).
Qed.

Lemma self_cov_diag_entry (s r g : R) (pts : matrix) (i : nat) :
  scale_keeps_rows L -> distance_shape L -> distance_zero_diag L ->
  maternp_one_at_zero L ->
  (i < length pts)%nat -> entry (self_cov 2 pts s r g) i i = s + g.
Proof.
  intros Hs Hd Hz H1 Hi.
  assert (Hi' : (i < length (scale pts r))%nat) by (rewrite Hs; lia).
  rewrite self_cov_entry by assumption.
  rewrite Hz by assumption. rewrite H1, Nat.eqb_refl. ring.
Qed.

(** The diagonal of the full self-covariance when a point is at distance 0
    from itself and the profile is 1 at distance 0. *)
Lemma self_cov_diag (s r g : R) (pts : matrix) :
  scale_keeps_rows L -> distance_shape L -> distance_zero_diag L ->
  maternp_one_at_zero L ->
  diag (self_cov 2 pts s r g) = repeat (s + g) (length pts).
Proof.
  intros Hs Hd Hz H1. unfold diag.
  assert (Hn : length (self_cov 2 pts s r g) = length pts).
  { destruct (self_cov_shape 2 s r g pts Hd) as [-> _]. apply Hs. }
  rewrite Hn.
  transitivity (map (fun _ : nat => s + g) (seq 0 (length pts)));
    [|now rewrite map_const_repeat, length_seq].
  apply map_ext_in.
  intros i Hi. apply in_seq in Hi.
  apply self_cov_diag_entry; try assumption. lia.
Qed.

End KernelFacts.

(* ================================================================= *)
(** ** The reference instance has the properties the script relies on *)

Section Reference.

Variable eps : R.

Lemma reference_scale_keeps_rows : scale_keeps_rows (reference_lib eps).
Proof. intros x r. simpl. apply length_map. Qed.

Lemma reference_distance_shape : distance_shape (reference_lib eps).
Proof.
  intros a b; simpl. split; [apply length_map|].
  apply Forall_forall. intros r Hr.
  apply in_map_iff in Hr as [u [<- _]]. apply length_map.
Qed.

Lemma reference_distance_pairwise_shape : distance_pairwise_shape (reference_lib eps).
Proof. intros a b H; simpl. now apply map2_length. Qed.

Lemma sq_dist_sym (a b : list R) : sq_dist a b = sq_dist b a.
Proof.
  unfold sq_dist. revert b; induction a as [|u a IH]; intros [|v b]; simpl; try reflexivity.
  rewrite IH. ring.
Qed.

Lemma sq_dist_refl (a : list R) : sq_dist a a = 0.
Proof.
  unfold sq_dist. induction a as [|u a IH]; simpl; [reflexivity|].
  rewrite IH. ring.
Qed.

Lemma reference_distance_entry (a b : matrix) i j :
  (i < length a)%nat -> (j < length b)%nat ->
  entry (distance (GpLib := reference_lib eps) a b) i j = euclid (nth i a []) (nth j b []).
Proof.
  intros Hi Hj. unfold entry; simpl.
  rewrite (nth_indep _ [] ((fun u => map (euclid u) b) [])) by (now rewrite length_map).
  rewrite (map_nth (fun u => map (euclid u) b)).
  rewrite (nth_indep _ 0 (euclid (nth i a []) [])) by (now rewrite length_map).
  apply map_nth.
Qed.

Lemma reference_distance_symmetric : distance_symmetric (reference_lib eps).
Proof.
  intros a. apply (@symmetric_intro _ (length a)).
  - apply (reference_distance_shape a a).
  - intros i j Hi Hj. rewrite !reference_distance_entry by assumption.
    unfold euclid. now rewrite sq_dist_sym.
Qed.

Lemma reference_distance_zero_diag : distance_zero_diag (reference_lib eps).
Proof.
  intros a i Hi. rewrite reference_distance_entry by assumption.
  unfold euclid. rewrite sq_dist_refl. apply sqrt_0.
Qed.

Lemma reference_maternp_one_at_zero : maternp_one_at_zero (reference_lib eps).
Proof.
  unfold maternp_one_at_zero; simpl. unfold matern_ref.
  rewrite Rmult_0_r, Ropp_0, exp_0. simpl. lra.
Qed.

End Reference.

(* ================================================================= *)
(** ** The kernel: dispatch, shapes, symmetry, nugget *)

Lemma kernel_self (L : GpLib) (x : ndarray) (param : vector) (pairwise : bool) :
  kernel x (PyArr x) param pairwise = kernel_ii_or_tt x param pairwise.
Proof. unfold kernel; simpl. now rewrite Nat.eqb_refl. Qed.

Lemma kernel_none (L : GpLib) (x : ndarray) (param : vector) (pairwise : bool) :
  kernel x PyNone param pairwise = kernel_ii_or_tt x param pairwise.
Proof. reflexivity. Qed.

Lemma kernel_other (L : GpLib) (x y : ndarray) (param : vector) (pairwise : bool) :
  oid y <> oid x ->
  kernel x (PyArr y) param pairwise = kernel_it x y param pairwise.
Proof.
  intros H. unfold kernel; simpl.
  apply Nat.eqb_neq in H. now rewrite H.
Qed.

(** C10.  The pairwise self-covariance, with [y] the array itself or [None],
    is the vector of length [x.shape[0]] whose entries are all exp(param[0]).
    The value names neither the coordinates of [x], nor param[1], nor
    [gp.eps]: another library, another point set with as many rows and
    other later parameters give the same vector. *)
Theorem pairwise_self_covariance (L : GpLib) (x : ndarray) (a b : R) (rest : vector) :
  kernel x (PyArr x) (a :: b :: rest) true = Ok (Vec (repeat (exp a) (shape0 x))) /\
  kernel x PyNone (a :: b :: rest) true = Ok (Vec (repeat (exp a) (shape0 x))) /\
  forall (L' : GpLib) (x' : ndarray) (b' : R) (rest' : vector),
    shape0 x' = shape0 x ->
    kernel (L := L') x' (PyArr x') (a :: b' :: rest') true =
    kernel x (PyArr x) (a :: b :: rest) true.
Proof.
  split; [|split].
  - rewrite kernel_self. apply kernel_ii_pairwise.
  - rewrite kernel_none. apply kernel_ii_pairwise.
  - intros L' x' b' rest' Hn.
    rewrite !kernel_self, !kernel_ii_pairwise. now rewrite Hn.
Qed.

(** C2.  [kernel] has two branches.  With [y] the array [x] itself or [None]
    it is [kernel_ii_or_tt]: an n x n matrix for [pairwise=False] and a vector
    of length n for [pairwise=True].  With any other array [y] it is
    [kernel_it]: an n x m matrix for [pairwise=False] and, for
    [pairwise=True] and as many points in [y] as in [x], the vector of the
    covariances of the aligned pairs. *)
Theorem kernel_dispatch (L : GpLib) (x : ndarray) (y : pyarg) (a b : R) (rest : vector) :
  scale_keeps_rows L -> distance_shape L -> distance_pairwise_shape L ->
  (py_is y x = true \/ y = PyNone ->
     (forall pairwise,
        kernel x y (a :: b :: rest) pairwise = kernel_ii_or_tt x (a :: b :: rest) pairwise) /\
     (exists K, kernel x y (a :: b :: rest) false = Ok (Mat K) /\
                has_shape (shape0 x) (shape0 x) K) /\
     (exists v, kernel x y (a :: b :: rest) true = Ok (Vec v) /\
                length v = shape0 x)) /\
  (forall y', y = PyArr y' -> oid y' <> oid x ->
     (forall pairwise,
        kernel x y (a :: b :: rest) pairwise = kernel_it x y' (a :: b :: rest) pairwise) /\
     (exists K, kernel x y (a :: b :: rest) false = Ok (Mat K) /\
                has_shape (shape0 x) (shape0 y') K) /\
     (shape0 y' = shape0 x ->
      exists v, kernel x y (a :: b :: rest) true = Ok (Vec v) /\
                length v = shape0 x /\
                v = map (fun d => exp a * maternp 2 d)
                        (distance_pairwise (scale (rows x) (exp b))
                                           (scale (rows y') (exp b))))).
Proof.
  intros Hs Hd Hp. split.
  - intros Hy.
    assert (E : forall pairwise,
               kernel x y (a :: b :: rest) pairwise
               = kernel_ii_or_tt x (a :: b :: rest) pairwise).
    { intros pairwise. unfold kernel. destruct Hy as [-> | ->]; reflexivity. }
    split; [exact E|split].
    + exists (self_cov 2 (rows x) (exp a) (exp b) (100 * gp_eps)).
      rewrite E, kernel_ii_full by assumption. split; [reflexivity|].
      unfold shape0. rewrite <- (Hs (rows x) (exp b)). now apply self_cov_shape.
    + exists (repeat (exp a) (shape0 x)).
      rewrite E, kernel_ii_pairwise. split; [reflexivity|apply repeat_length].
  - intros y' -> Hne.
    assert (E : forall pairwise,
               kernel x (PyArr y') (a :: b :: rest) pairwise
               = kernel_it x y' (a :: b :: rest) pairwise).
    { intros pairwise. now apply kernel_other. }
    split; [exact E|split].
    + exists (cross_cov 2 (rows x) (rows y') (exp a) (exp b)).
      rewrite E, kernel_it_value. split; [reflexivity|].
      unfold shape0. rewrite <- (Hs (rows x) (exp b)), <- (Hs (rows y') (exp b)).
      now apply cross_cov_shape.
    + intros Hn. eexists. rewrite E, kernel_it_value. split; [reflexivity|split; [|reflexivity]].
      rewrite length_map, Hp; rewrite !Hs; [reflexivity|].
      unfold shape0 in Hn. now rewrite Hn.
Qed.

Lemma kernel_dispatch_witness :
  scale_keeps_rows (reference_lib eps64) /\
  distance_shape (reference_lib eps64) /\
  distance_pairwise_shape (reference_lib eps64) /\
  oid y3 <> oid x3 /\
  (exists K, kernel (L := reference_lib eps64) x3 (PyArr x3) covparam false = Ok (Mat K) /\
             has_shape 3 3 K) /\
  (exists K, kernel (L := reference_lib eps64) x3 (PyArr y3) covparam false = Ok (Mat K) /\
             has_shape 3 3 K).
Proof.
  assert (Hs := reference_scale_keeps_rows eps64).
  assert (Hd := reference_distance_shape eps64).
  assert (Hp := reference_distance_pairwise_shape eps64).
  assert (Hne : oid y3 <> oid x3) by (simpl; lia).
  repeat (split; [assumption|]).
  split.
  - destruct (@kernel_dispatch (reference_lib eps64) x3 (PyArr x3)
                (ln (0.5 ^ 2)) (ln (1 / 0.7)) [] Hs Hd Hp) as [H _].
    destruct (H (or_introl eq_refl)) as [_ [HK _]]. exact HK.
  - destruct (@kernel_dispatch (reference_lib eps64) x3 (PyArr y3)
                (ln (0.5 ^ 2)) (ln (1 / 0.7)) [] Hs Hd Hp) as [_ H].
    destruct (H y3 eq_refl Hne) as [_ [HK _]]. exact HK.
Defined.

(** C4.  The self-covariance matrix K = kernel(x, x, param, pairwise=False)
    is symmetric, for a library whose distance matrix of a point set against
    itself is n x n and symmetric. *)
Theorem self_covariance_symmetric (L : GpLib) (x : ndarray) (a b : R) (rest : vector) :
  distance_shape L -> distance_symmetric L ->
  exists K, kernel x (PyArr x) (a :: b :: rest) false = Ok (Mat K) /\ symmetric K.
Proof.
  intros Hd Hsym.
  exists (self_cov 2 (rows x) (exp a) (exp b) (100 * gp_eps)).
  rewrite kernel_self, kernel_ii_full by assumption.
  split; [reflexivity|now apply self_cov_symmetric].
Qed.

Lemma self_covariance_symmetric_witness :
  distance_shape (reference_lib eps64) /\
  distance_symmetric (reference_lib eps64) /\
  exists K, kernel (L := reference_lib eps64) x3 (PyArr x3) covparam false = Ok (Mat K) /\
            symmetric K.
Proof.
  split; [apply reference_distance_shape|split; [apply reference_distance_symmetric|]].
  apply (@self_covariance_symmetric (reference_lib eps64) x3 (ln (0.5 ^ 2)) (ln (1 / 0.7)) []).
  - apply reference_distance_shape.
  - apply reference_distance_symmetric.
Defined.

(** C9.  The dispatch compares identities, not values.  For an array [y]
    that is another object than [x] with the same content,
    [kernel(x, y, param, pairwise=False)] is the cross-covariance [Kc], which
    has no nugget, and [kernel(x, x, param, pairwise=False)] is
    [Kc + 100 * gp.eps * eye(n)]: the two differ by the nugget on the
    diagonal and nowhere else, and are different matrices as soon as
    [gp.eps] is not 0 and [x] has a point. *)
Theorem dispatch_by_identity (L : GpLib) (x y : ndarray) (a b : R) (rest : vector) :
  scale_keeps_rows L -> distance_shape L ->
  oid y <> oid x -> rows y = rows x ->
  exists Kc K,
    kernel x (PyArr y) (a :: b :: rest) false = Ok (Mat Kc) /\
    kernel x (PyArr x) (a :: b :: rest) false = Ok (Mat K) /\
    has_shape (shape0 x) (shape0 x) Kc /\
    K = map2 (map2 Rplus) Kc (map (map (Rmult (100 * gp_eps))) (eye (shape0 x))) /\
    (forall i j, (i < shape0 x)%nat -> (j < shape0 x)%nat ->
       entry K i j = entry Kc i j + 100 * gp_eps * (if Nat.eqb i j then 1 else 0)) /\
    (gp_eps <> 0 -> rows x <> [] -> K <> Kc).
Proof.
  intros Hs Hd Hne Hrows.
  exists (cross_cov 2 (rows x) (rows x) (exp a) (exp b)).
  exists (self_cov 2 (rows x) (exp a) (exp b) (100 * gp_eps)).
  assert (Hn : length (scale (rows x) (exp b)) = shape0 x) by apply Hs.
  assert (Hlen : length (distance (scale (rows x) (exp b)) (scale (rows x) (exp b)))
                 = shape0 x) by (rewrite <- Hn; apply Hd).
  assert (Hent : forall i j, (i < shape0 x)%nat -> (j < shape0 x)%nat ->
            entry (self_cov 2 (rows x) (exp a) (exp b) (100 * gp_eps)) i j
            = entry (cross_cov 2 (rows x) (rows x) (exp a) (exp b)) i j
              + 100 * gp_eps * (if Nat.eqb i j then 1 else 0)).
  { intros i j Hi Hj.
    rewrite self_cov_entry, cross_cov_entry by (try assumption; rewrite Hn; assumption).
    reflexivity. }
  split; [|split; [|split; [|split; [|split]]]].
  - rewrite kernel_other, kernel_it_value by assumption. now rewrite Hrows.
  - rewrite kernel_self. now apply kernel_ii_full.
  - rewrite <- Hn. now apply cross_cov_shape.
  - unfold self_cov. now rewrite Hlen.
  - exact Hent.
  - intros Heps Hx E.
    assert (H0 : (0 < shape0 x)%nat).
    { unfold shape0. destruct (rows x); [congruence|simpl; lia]. }
    specialize (Hent 0%nat 0%nat H0 H0). rewrite E in Hent. simpl in Hent.
    apply Heps. lra.
Qed.

Lemma dispatch_by_identity_witness :
  scale_keeps_rows (reference_lib eps64) /\
  distance_shape (reference_lib eps64) /\
  oid y3 <> oid x3 /\ rows y3 = rows x3 /\
  exists Kc K,
    kernel (L := reference_lib eps64) x3 (PyArr y3) covparam false = Ok (Mat Kc) /\
    kernel (L := reference_lib eps64) x3 (PyArr x3) covparam false = Ok (Mat K) /\
    K = map2 (map2 Rplus) Kc (map (map (Rmult (100 * eps64))) (eye 3)).
Proof.
  assert (Hs := reference_scale_keeps_rows eps64).
  assert (Hd := reference_distance_shape eps64).
  assert (Hne : oid y3 <> oid x3) by (simpl; lia).
  repeat (split; [first [assumption | reflexivity]|]).
  destruct (@dispatch_by_identity (reference_lib eps64) x3 y3
              (ln (0.5 ^ 2)) (ln (1 / 0.7)) [] Hs Hd Hne eq_refl)
    as [Kc [K [H1 [H2 [_ [H3 _]]]]]].
  exists Kc, K. repeat split; assumption.
Defined.

Lemma eps64_pos : 0 < eps64.
Proof. unfold eps64. apply Rinv_0_lt_compat. lra. Qed.

Lemma covparam_sigma2 : exp (ln (0.5 ^ 2)) = 0.25.
Proof. rewrite exp_ln; lra. Qed.

Lemma covparam_invrho : exp (ln (1 / 0.7)) = 1 / 0.7.
Proof. apply exp_ln. lra. Qed.

(** C5, as the code has it.  With the example's [covparam] the kernel works
    with p = 2, sigma2 = exp(covparam[0]) = 0.25 and
    invrho = exp(covparam[1]) = 1/0.7; the pairwise self-covariance is 0.25
    at every point, and entry (i, j) of the self-covariance matrix is
    0.25 * maternp(2, d_ij) plus, on the diagonal, the nugget [100 * gp.eps],
    a constant of the library that does not depend on sigma2. *)
Theorem example_kernel_parameters (L : GpLib) (x : ndarray) :
  scale_keeps_rows L -> distance_shape L ->
  exp (nth 0 covparam 0) = 0.25 /\
  exp (nth 1 covparam 0) = 1 / 0.7 /\
  kernel x (PyArr x) covparam true = Ok (Vec (repeat 0.25 (shape0 x))) /\
  exists K,
    kernel x (PyArr x) covparam false = Ok (Mat K) /\
    K = self_cov 2 (rows x) 0.25 (1 / 0.7) (100 * gp_eps) /\
    forall i j, (i < shape0 x)%nat -> (j < shape0 x)%nat ->
      entry K i j =
      0.25 * maternp 2 (entry (distance (scale (rows x) (1 / 0.7))
                                        (scale (rows x) (1 / 0.7))) i j)
      + 100 * gp_eps * (if Nat.eqb i j then 1 else 0).
Proof.
  intros Hs Hd. unfold covparam.
  split; [apply covparam_sigma2|split; [apply covparam_invrho|split]].
  - rewrite kernel_self, kernel_ii_pairwise. now rewrite covparam_sigma2.
  - eexists. rewrite kernel_self, kernel_ii_full by assumption.
    rewrite covparam_sigma2, covparam_invrho.
    split; [reflexivity|split; [reflexivity|]].
    intros i j Hi Hj. apply self_cov_entry; try assumption; rewrite Hs; assumption.
Qed.

Lemma example_kernel_parameters_witness :
  scale_keeps_rows (reference_lib eps64) /\
  distance_shape (reference_lib eps64) /\
  kernel (L := reference_lib eps64) x3 (PyArr x3) covparam true
  = Ok (Vec [0.25; 0.25; 0.25]) /\
  kernel (L := reference_lib eps64) x3 (PyArr x3) covparam false
  = Ok (Mat (self_cov (L := reference_lib eps64) 2 (rows x3) 0.25 (1 / 0.7) (100 * eps64))).
Proof.
  assert (Hs := reference_scale_keeps_rows eps64).
  assert (Hd := reference_distance_shape eps64).
  repeat (split; [assumption|]).
  destruct (@example_kernel_parameters (reference_lib eps64) x3 Hs Hd)
    as [_ [_ [Hv [K [HK [-> _]]]]]].
  split; assumption.
Defined.

Lemma reference_self_cov_diag_entry (eps : R) (x : ndarray) i :
  (i < shape0 x)%nat ->
  entry (self_cov (L := reference_lib eps) 2 (rows x) (exp (ln (0.5 ^ 2)))
           (exp (ln (1 / 0.7))) (100 * eps)) i i - 0.25 = 100 * eps.
Proof.
  intros Hi.
  assert (Hs := reference_scale_keeps_rows eps).
  rewrite (self_cov_entry (L := reference_lib eps));
    [|apply reference_distance_shape|rewrite Hs; exact Hi|rewrite Hs; exact Hi].
  rewrite (reference_distance_zero_diag eps) by (rewrite Hs; exact Hi).
  rewrite (reference_maternp_one_at_zero eps), Nat.eqb_refl, covparam_sigma2.
  lra.
Qed.

(** C5 as stated fails on the nugget: at the example's parameters the term
    the kernel adds on the diagonal is not close to 1e-10 * sigma2.  It is
    [100 * gp.eps], more than 1000 times smaller with the machine epsilon of
    binary64 and more than 1000 times larger with that of binary32. *)
Lemma example_nugget_is_not_1e10_sigma2 :
  (exists K,
     kernel (L := reference_lib eps64) x3 (PyArr x3) covparam false = Ok (Mat K) /\
     forall i, (i < 3)%nat ->
       entry K i i - 0.25 = 100 * eps64 /\
       ~ within_factor 1000 (entry K i i - 0.25) (1e-10 * 0.25)) /\
  (exists K,
     kernel (L := reference_lib eps32) x3 (PyArr x3) covparam false = Ok (Mat K) /\
     forall i, (i < 3)%nat ->
       entry K i i - 0.25 = 100 * eps32 /\
       ~ within_factor 1000 (entry K i i - 0.25) (1e-10 * 0.25)).
Proof.
  split.
  - eexists. split.
    + unfold covparam. rewrite kernel_self.
      apply (kernel_ii_full (L := reference_lib eps64)), reference_distance_shape.
    + intros i Hi. simpl gp_eps.
      rewrite (@reference_self_cov_diag_entry eps64 x3 i Hi).
      split; [reflexivity|]. unfold within_factor, eps64. lra.
  - eexists. split.
    + unfold covparam. rewrite kernel_self.
      apply (kernel_ii_full (L := reference_lib eps32)), reference_distance_shape.
    + intros i Hi. simpl gp_eps.
      rewrite (@reference_self_cov_diag_entry eps32 x3 i Hi).
      split; [reflexivity|]. unfold within_factor, eps32. lra.
Qed.

(* ================================================================= *)
(** ** Linear systems *)

Section LinearSystems.

Lemma dot_nil_r (u : vector) : dot u [] = 0.
Proof. destruct u; reflexivity. Qed.

Lemma dot_cons (u v : R) (r x : vector) : dot (u :: r) (v :: x) = u * v + dot r x.
Proof. reflexivity. Qed.

Lemma dot_app (u v x1 x2 : vector) :
  length u = length x1 -> dot (u ++ v) (x1 ++ x2) = dot u x1 + dot v x2.
Proof.
  revert x1; induction u as [|e u IH]; intros [|e1 x1] H; simpl in *; try congruence.
  - unfold dot at 2; simpl. lra.
  - rewrite !dot_cons, IH by congruence. lra.
Qed.

(** The inner product with a vector of the canonical basis reads one entry. *)
Lemma dot_basis (r : vector) (s j : nat) :
  dot r (map (fun i => if Nat.eqb i j then 1 else 0) (seq s (length r)))
  = if Nat.leb s j then nth (j - s) r 0 else 0.
Proof.
  revert s; induction r as [|e r IH]; intros s; simpl.
  - destruct (Nat.leb s j), (j - s)%nat; reflexivity.
  - rewrite dot_cons, IH.
    destruct (Nat.eqb_spec s j) as [->|Hne].
    + rewrite Nat.leb_refl, Nat.sub_diag.
      replace (Nat.leb (S j) j) with false by (symmetry; apply Nat.leb_gt; lia). lra.
    + destruct (Nat.leb_spec s j) as [Hle|Hgt].
      * replace (Nat.leb (S s) j) with true by (symmetry; apply Nat.leb_le; lia).
        replace (j - s)%nat with (S (j - S s)) by lia. simpl. lra.
      * replace (Nat.leb (S s) j) with false by (symmetry; apply Nat.leb_gt; lia). lra.
Qed.

Lemma dot_unit_vec (r : vector) (j : nat) : dot r (unit_vec (length r) j) = nth j r 0.
Proof. unfold unit_vec. rewrite dot_basis. simpl. now rewrite Nat.sub_0_r. Qed.

Lemma unit_vec_length (n j : nat) : length (unit_vec n j) = n.
Proof. unfold unit_vec. now rewrite length_map, length_seq. Qed.

Lemma mat_vec_length (a : matrix) (x : vector) : length (mat_vec a x) = length a.
Proof. apply length_map. Qed.

(** A matrix applied to the j-th basis vector is its j-th column. *)
Lemma mat_vec_unit (a : matrix) (m j : nat) :
  Forall (fun r => length r = m) a -> mat_vec a (unit_vec m j) = col j a.
Proof.
  intros H. unfold mat_vec, col. apply map_ext_in. intros r Hr.
  rewrite Forall_forall in H. rewrite <- (H r Hr). apply dot_unit_vec.
Qed.

Lemma nth_transpose (a : matrix) (m j : nat) :
  (j < m)%nat -> nth j (transpose m a) [] = col j a.
Proof.
  intros Hj. unfold transpose.
  rewrite (nth_indep _ [] ((fun j => col j a) 0%nat)) by (now rewrite length_map, length_seq).
  rewrite (map_nth (fun j => col j a)), seq_nth by assumption. reflexivity.
Qed.

(** In a symmetric matrix column j is row j. *)
Lemma symmetric_col (a : matrix) (j : nat) :
  symmetric a -> (j < length a)%nat -> col j a = nth j a [].
Proof.
  intros H Hj. rewrite <- (nth_transpose a Hj). now rewrite H.
Qed.

Lemma lin_solve_ok (a : matrix) (b : vector) :
  nonsingular a -> length b = length a ->
  exists x, lin_solve a b = Ok x /\ solves a b x.
Proof.
  intros Ha Hb. unfold lin_solve.
  destruct (excluded_middle_informative (exists ! x, solves a b x)) as [H|H].
  - eexists. split; [reflexivity|].
    exact (proj2_sig (constructive_definite_description _ H)).
  - exfalso. apply H. now apply Ha.
Qed.

Lemma lin_solve_unique (a : matrix) (b x : vector) :
  nonsingular a -> solves a b x -> lin_solve a b = Ok x.
Proof.
  intros Ha Hx.
  assert (Hb : length b = length a).
  { destruct Hx as [_ <-]. apply mat_vec_length. }
  destruct (@lin_solve_ok a b Ha Hb) as [x' [E Hx']]. rewrite E. f_equal.
  destruct (Ha b Hb) as [x0 [_ Huniq]].
  now rewrite <- (Huniq x Hx), <- (Huniq x' Hx').
Qed.

(** Solving a symmetric system against its own j-th row gives the j-th basis
    vector, and the reduction of variance is the diagonal entry. *)
Lemma solve_against_own_row (a : matrix) (j : nat) :
  nonsingular a -> symmetric a -> (j < length a)%nat ->
  (v <- lin_solve a (nth j a []) ;; Ok (dot (nth j a []) v)) = Ok (entry a j j).
Proof.
  intros Ha Hs Hj.
  assert (Hsh := symmetric_shape Hs).
  rewrite (@lin_solve_unique a (nth j a []) (unit_vec (length a) j)); try assumption.
  - simpl. f_equal.
    unfold entry. rewrite <- dot_unit_vec. now rewrite (has_shape_row Hsh Hj).
  - split; [apply unit_vec_length|].
    rewrite (@mat_vec_unit a (length a) j) by apply Hsh. now apply symmetric_col.
Qed.

End LinearSystems.

(* ================================================================= *)
(** ** The block system of the unknown mean *)

Lemma map2_app_row_length (a b : matrix) (n q : nat) :
  Forall (fun r => length r = n) a -> Forall (fun r => length r = q) b ->
  Forall (fun r => length r = (n + q)%nat) (map2 (@app R) a b).
Proof.
  intros Ha. revert b. induction Ha as [|r a Hr Ha IH]; intros [|r' b] Hb; simpl; constructor.
  - inversion Hb; subst. now rewrite length_app.
  - inversion Hb; subst. now apply IH.
Qed.

Lemma map2_app_dot (a b : matrix) (alpha beta : vector) :
  Forall (fun r => length r = length alpha) a ->
  map (fun r => dot r (alpha ++ beta)) (map2 (@app R) a b)
  = map2 Rplus (mat_vec a alpha) (mat_vec b beta).
Proof.
  intros Ha. revert b. induction Ha as [|r a Hr Ha IH]; intros [|r' b]; simpl; try reflexivity.
  rewrite IH, dot_app by assumption. reflexivity.
Qed.

Section BlockSystem.

Variables (K Pi : matrix) (n q : nat).

Hypothesis HK : has_shape n n K.
Hypothesis HP : has_shape n q Pi.
Hypothesis Hq : width Pi = q.

Lemma top_rows_length : length (map2 (@app R) K Pi) = n.
Proof. destruct HK as [Hn _], HP as [Hn' _]. rewrite map2_length; congruence. Qed.

Lemma block_shape : has_shape (n + q) (n + q) (block K Pi).
Proof.
  unfold block. rewrite Hq. split.
  - rewrite length_app, top_rows_length, length_map.
    destruct (transpose_shape Pi q) as [-> _]. reflexivity.
  - apply Forall_app. split.
    + apply map2_app_row_length; [apply HK|apply HP].
    + apply Forall_forall. intros r Hr.
      apply in_map_iff in Hr as [c [<- Hc]].
      destruct (transpose_shape Pi q) as [_ Hf]. rewrite Forall_forall in Hf.
      rewrite length_app, (Hf c Hc). unfold zeros. rewrite repeat_length.
      destruct HP as [-> _]. reflexivity.
Qed.

Lemma block_top_row (i : nat) :
  (i < n)%nat -> nth i (block K Pi) [] = nth i K [] ++ nth i Pi [].
Proof.
  intros Hi. unfold block.
  rewrite app_nth1 by (rewrite top_rows_length; exact Hi).
  destruct HK as [Hn _], HP as [Hn' _].
  apply (map2_nth (@app R) K Pi [] [] []); lia.
Qed.

Lemma block_entry (i j : nat) :
  (i < n + q)%nat -> (j < n + q)%nat ->
  entry (block K Pi) i j =
  if Nat.ltb i n
  then if Nat.ltb j n then entry K i j else entry Pi i (j - n)
  else if Nat.ltb j n then entry Pi j (i - n) else 0.
Proof.
  intros Hi Hj. unfold entry at 1.
  destruct (Nat.ltb_spec i n) as [Hin|Hin].
  - rewrite block_top_row by assumption.
    assert (Hr := has_shape_row HK Hin).
    destruct (Nat.ltb_spec j n) as [Hjn|Hjn].
    + now rewrite app_nth1 by lia.
    + rewrite app_nth2 by lia. now rewrite Hr.
  - unfold block. rewrite app_nth2 by (rewrite top_rows_length; exact Hin).
    rewrite top_rows_length, Hq.
    assert (Hiq : (i - n < q)%nat) by lia.
    rewrite (nth_indep _ [] ((fun c => c ++ zeros q) []))
      by (rewrite length_map; destruct (transpose_shape Pi q) as [-> _]; exact Hiq).
    rewrite (map_nth (fun c => c ++ zeros q)), nth_transpose by assumption.
    assert (Hc : length (col (i - n) Pi) = n).
    { unfold col. rewrite length_map. apply HP. }
    destruct (Nat.ltb_spec j n) as [Hjn|Hjn].
    + rewrite app_nth1 by lia. unfold col, entry.
      apply (nth_map_default (fun r : list R => nth (i - n) r 0)).
      destruct (i - n)%nat; reflexivity.
    + rewrite app_nth2 by lia. unfold zeros. apply nth_repeat.
Qed.

Lemma block_symmetric : symmetric K -> symmetric (block K Pi).
Proof.
  intros Hs. apply (@symmetric_intro _ (n + q)); [apply block_shape|].
  assert (Hn : length K = n) by apply HK.
  intros i j Hi Hj. rewrite !block_entry by assumption.
  destruct (Nat.ltb_spec i n), (Nat.ltb_spec j n); try reflexivity.
  apply symmetric_entry; [assumption|lia].
Qed.

(** The first n equations of the block system: K alpha + P beta. *)
Lemma block_top_equations (alpha beta : vector) :
  length alpha = n ->
  map (fun r => dot r (alpha ++ beta)) (map2 (@app R) K Pi)
  = map2 Rplus (mat_vec K alpha) (mat_vec Pi beta).
Proof.
  intros Ha. apply map2_app_dot. rewrite Ha. apply HK.
Qed.

Lemma block_solution_top (zi ab : vector) :
  length zi = n -> length ab = (n + q)%nat ->
  mat_vec (block K Pi) ab = zi ++ zeros q ->
  map2 Rplus (mat_vec K (firstn n ab)) (mat_vec Pi (skipn n ab)) = zi.
Proof.
  intros Hz Hab E.
  rewrite <- block_top_equations by (rewrite firstn_length_le; lia).
  rewrite firstn_skipn.
  unfold block, mat_vec in E. rewrite map_app in E.
  apply (f_equal (firstn n)) in E.
  rewrite !firstn_app in E.
  rewrite length_map, top_rows_length, Hz, Nat.sub_diag in E. simpl in E.
  rewrite !app_nil_r in E.
  rewrite !firstn_all2 in E by (try rewrite length_map, top_rows_length; lia).
  exact E.
Qed.

End BlockSystem.

(* ================================================================= *)
(** ** Prediction at the training points *)

Section PredictAtTrainingPoints.

Variables (P : Type) (m : Model P) (xi : ndarray) (zi : vector).
Variables (K : matrix) (ktt : vector).

Hypothesis Hzi : length zi = shape0 xi.
Hypothesis HK : model_kernel m xi (PyArr xi) (model_covparam m) false = Ok (Mat K).
Hypothesis Hktt : model_kernel m xi (PyArr xi) (model_covparam m) true = Ok (Vec ktt).
Hypothesis Hn : length K = shape0 xi.
Hypothesis Hsym : symmetric K.

Lemma transpose_training : transpose (shape0 xi) K = K.
Proof. rewrite <- Hn. exact Hsym. Qed.

Lemma dimension_check_passes :
  negb (Nat.eqb (shape0 xi) (length zi)) || negb (Nat.eqb (ncols xi) (ncols xi)) = false.
Proof. now rewrite Hzi, !Nat.eqb_refl. Qed.

(** Simple kriging: the mean function returns [None]. *)
Lemma predict_training_zero_mean :
  model_mean m xi (model_meanparam m) = None ->
  nonsingular K ->
  predict m xi zi xi = Ok (zi, map2 Rminus ktt (diag K)).
Proof.
  intros Hmean Hns. unfold predict, predict_with.
  rewrite dimension_check_passes, HK, Hktt, Hmean. simpl.
  rewrite transpose_training.
  destruct (@lin_solve_ok K zi Hns) as [alpha [E [_ Hmv]]]; [congruence|].
  rewrite E. simpl. rewrite Hmv.
  rewrite (mapM_nth _ (fun i => entry K i i) K []).
  - reflexivity.
  - intros i Hi. now apply solve_against_own_row.
Qed.

(** Unknown mean: the mean function returns a basis of shape (n, q). *)
Lemma predict_training_basis (Pi : matrix) :
  model_mean m xi (model_meanparam m) = Some Pi ->
  has_shape (shape0 xi) (width Pi) Pi ->
  nonsingular (block K Pi) ->
  predict m xi zi xi = Ok (zi, map2 Rminus ktt (diag K)).
Proof.
  intros Hmean HP Hns. unfold predict, predict_with.
  rewrite dimension_check_passes, HK, Hktt, Hmean. simpl.
  rewrite transpose_training.
  assert (HKs : has_shape (shape0 xi) (shape0 xi) K).
  { rewrite <- Hn. now apply symmetric_shape. }
  assert (HM := block_shape HKs HP eq_refl).
  assert (HMs := block_symmetric HKs HP eq_refl Hsym).
  assert (HMn : length (block K Pi) = (shape0 xi + width Pi)%nat) by apply HM.
  destruct (@lin_solve_ok (block K Pi) (zi ++ zeros (width Pi)) Hns)
    as [ab [E [Hlen Hmv]]].
  { unfold zeros. rewrite length_app, repeat_length. lia. }
  rewrite E. simpl.
  unfold vec_add. rewrite !mat_vec_length.
  replace (Nat.eqb (length K) (length Pi)) with true
    by (symmetry; apply Nat.eqb_eq; destruct HP; congruence).
  simpl.
  rewrite (@block_solution_top K Pi (shape0 xi) (width Pi) HKs HP eq_refl zi ab)
    by (try assumption; lia).
  rewrite (mapM_nth _ (fun i => entry K i i) (map2 (@app R) K Pi) []).
  - rewrite (top_rows_length HKs HP), <- Hn. reflexivity.
  - intros i Hi. rewrite (top_rows_length HKs HP) in Hi.
    assert (Hrow : nth i (map2 (@app R) K Pi) [] = nth i (block K Pi) []).
    { unfold block. rewrite app_nth1; [reflexivity|].
      now rewrite (top_rows_length HKs HP). }
    rewrite Hrow.
    rewrite solve_against_own_row by (try assumption; lia).
    rewrite (block_entry HKs HP eq_refl) by lia.
    now replace (Nat.ltb i (shape0 xi)) with true by (symmetry; apply Nat.ltb_lt; exact Hi).
Qed.

End PredictAtTrainingPoints.

Lemma diag_nth (a : matrix) (i : nat) :
  (i < length a)%nat -> nth i (diag a) 0 = entry a i i.
Proof.
  intros Hi. unfold diag.
  rewrite (nth_indep _ 0 ((fun i => entry a i i) 0%nat)) by (now rewrite length_map, length_seq).
  rewrite (map_nth (fun i => entry a i i)), seq_nth by assumption. reflexivity.
Qed.

Lemma diag_length (a : matrix) : length (diag a) = length a.
Proof. unfold diag. now rewrite length_map, length_seq. Qed.

(** C1.  Prediction at the training points themselves, [predict(xi, zi, xi)],
    for a kernel whose self-covariance matrix is symmetric and whose diagonal
    exceeds the prior variance by no more than a tolerance [tol] (the
    nugget), and for a kriging system with one solution: the call returns,
    the predictive mean is [zi], and each predictive variance is the prior
    variance minus the diagonal entry, of magnitude at most [tol]. *)
Theorem predict_interpolates (P : Type) (m : Model P) (xi : ndarray) (zi : vector)
    (K : matrix) (ktt : vector) (tol : R) :
  length zi = shape0 xi ->
  model_kernel m xi (PyArr xi) (model_covparam m) false = Ok (Mat K) ->
  model_kernel m xi (PyArr xi) (model_covparam m) true = Ok (Vec ktt) ->
  length K = shape0 xi -> symmetric K ->
  length ktt = shape0 xi ->
  (forall i, (i < shape0 xi)%nat -> Rabs (entry K i i - nth i ktt 0) <= tol) ->
  match model_mean m xi (model_meanparam m) with
  | None => nonsingular K
  | Some Pi => has_shape (shape0 xi) (width Pi) Pi /\ nonsingular (block K Pi)
  end ->
  exists zpv,
    predict m xi zi xi = Ok (zi, zpv) /\
    length zpv = shape0 xi /\
    (forall i, (i < shape0 xi)%nat -> nth i zpv 0 = nth i ktt 0 - entry K i i) /\
    Forall (fun v => Rabs v <= tol) zpv.
Proof.
  intros Hzi HK Hktt Hn Hsym Hlen Htol Hmean.
  exists (map2 Rminus ktt (diag K)).
  assert (Hl : length (map2 Rminus ktt (diag K)) = shape0 xi).
  { rewrite map2_length; [assumption|]. rewrite diag_length. congruence. }
  assert (Hnth : forall i, (i < shape0 xi)%nat ->
            nth i (map2 Rminus ktt (diag K)) 0 = nth i ktt 0 - entry K i i).
  { intros i Hi.
    rewrite (map2_nth Rminus ktt (diag K) 0 0 0) by (try rewrite diag_length; lia).
    rewrite diag_nth by lia. reflexivity. }
  split; [|split; [exact Hl|split; [exact Hnth|]]].
  - destruct (model_mean m xi (model_meanparam m)) as [Pi|] eqn:E.
    + destruct Hmean as [HP Hns]. now apply predict_training_basis with (Pi := Pi).
    + now apply predict_training_zero_mean.
  - apply Forall_forall. intros v Hv.
    destruct (In_nth _ _ 0 Hv) as [i [Hi <-]]. rewrite Hl in Hi.
    rewrite Hnth by assumption. rewrite Rabs_minus_sym. now apply Htol.
Qed.

(** C7.  When the number of observations differs from the number of
    training points, or the point dimension of [xi] from that of [xt],
    [predict] fails with [DimensionMismatch]; it does so whatever the linear
    solver and the model are, so before any kernel evaluation or solve. *)
Theorem predict_dimension_mismatch (P : Type)
    (solve : matrix -> vector -> result vector) (m : Model P)
    (xi : ndarray) (zi : vector) (xt : ndarray) :
  shape0 xi <> length zi \/ ncols xi <> ncols xt ->
  predict_with solve m xi zi xt = Raise DimensionMismatch /\
  predict m xi zi xt = Raise DimensionMismatch.
Proof.
  intros H.
  assert (E : negb (Nat.eqb (shape0 xi) (length zi)) || negb (Nat.eqb (ncols xi) (ncols xt))
              = true).
  { apply orb_true_iff. destruct H as [H|H]; [left|right];
      apply negb_true_iff, Nat.eqb_neq; exact H. }
  unfold predict, predict_with. now rewrite E.
Qed.

Lemma predict_dimension_mismatch_witness :
  shape0 x3 <> length [1; 2] /\
  predict (model (L := reference_lib eps64)) x3 [1; 2] x3 = Raise DimensionMismatch.
Proof.
  assert (H : shape0 x3 <> length [1; 2]) by (unfold shape0; simpl; lia).
  split; [exact H|].
  apply (@predict_dimension_mismatch pyarg lin_solve (model (L := reference_lib eps64))
           x3 [1; 2] x3 (or_introl H)).
Defined.

(* ================================================================= *)
(** ** The script's model at its training points *)

Section ExampleAtTrainingPoints.

Context {L : GpLib}.

Variables (xi : ndarray) (zi : vector).

Hypothesis Hs : scale_keeps_rows L.
Hypothesis Hd : distance_shape L.
Hypothesis Hy : distance_symmetric L.
Hypothesis Hz : distance_zero_diag L.
Hypothesis H1 : maternp_one_at_zero L.
Hypothesis Hzi : length zi = shape0 xi.
Hypothesis Hns :
  nonsingular (block (self_cov 2 (rows xi) (exp (ln (0.5 ^ 2))) (exp (ln (1 / 0.7)))
                        (100 * gp_eps))
                     (ones2 (shape0 xi) 1)).

Lemma ones2_shape (n : nat) : has_shape n (width (ones2 n 1)) (ones2 n 1).
Proof.
  unfold ones2. split; [apply repeat_length|].
  destruct n; [constructor|].
  apply Forall_forall. intros r Hr. apply repeat_spec in Hr. now subst r.
Qed.

(** With the script's kernel and constant mean, and for a library whose
    distance from a point to itself is 0, the predictive mean at the training
    points is [zi] and every predictive variance is minus the nugget. *)
Lemma example_predict_training :
  predict model xi zi xi = Ok (zi, repeat (- (100 * gp_eps)) (shape0 xi)).
Proof.
  set (K := self_cov 2 (rows xi) (exp (ln (0.5 ^ 2))) (exp (ln (1 / 0.7))) (100 * gp_eps)).
  assert (Hn : length K = shape0 xi).
  { destruct (self_cov_shape 2 (exp (ln (0.5 ^ 2))) (exp (ln (1 / 0.7))) (100 * gp_eps)
                (rows xi) Hd) as [E _].
    unfold K. rewrite E. apply Hs. }
  rewrite (@predict_training_basis pyarg model xi zi K
             (repeat (exp (ln (0.5 ^ 2))) (shape0 xi)) Hzi) with (Pi := ones2 (shape0 xi) 1).
  - f_equal. f_equal. unfold K. rewrite self_cov_diag by assumption.
    fold (shape0 xi). rewrite map2_repeat. f_equal. ring.
  - simpl model_kernel. unfold covparam. rewrite kernel_self. now apply kernel_ii_full.
  - simpl model_kernel. unfold covparam. rewrite kernel_self. apply kernel_ii_pairwise.
  - exact Hn.
  - now apply self_cov_symmetric.
  - reflexivity.
  - apply ones2_shape.
  - exact Hns.
Qed.

(** After the clamp the variances at the training points are exactly 0. *)
Lemma example_prediction_training :
  0 <= gp_eps ->
  prediction xi zi xi = Ok (zi, repeat 0 (shape0 xi)).
Proof.
  intros Heps. unfold prediction. rewrite example_predict_training. simpl.
  f_equal. f_equal. unfold np_maximum. rewrite map_repeat.
  f_equal. apply Rmax_right. lra.
Qed.

End ExampleAtTrainingPoints.

(** Whatever [prediction] returns, its variances are not negative. *)
Lemma prediction_variance_nonneg (L : GpLib) (xi : ndarray) (zi : vector)
    (xt : ndarray) (zpm zpv : vector) :
  prediction xi zi xt = Ok (zpm, zpv) -> Forall (fun e => 0 <= e) zpv.
Proof.
  unfold prediction. destruct (predict model xi zi xt) as [[m v]|e]; simpl; [|discriminate].
  intros E. injection E as _ <-.
  apply Forall_forall. intros e He. unfold np_maximum in He.
  apply in_map_iff in He as [e' [<- _]]. apply Rmax_0_nonneg.
Qed.

(* ================================================================= *)
(** ** The reference instance: transposition and aligned pairs *)

Lemma euclid_sym (u v : list R) : euclid u v = euclid v u.
Proof. unfold euclid. now rewrite sq_dist_sym. Qed.

Lemma reference_distance_transposes (eps : R) : distance_transposes (reference_lib eps).
Proof.
  intros a b. apply (@mat_ext _ _ (length b) (length a)).
  - rewrite <- (proj1 (reference_distance_shape eps a b)). apply transpose_shape.
  - apply (reference_distance_shape eps b a).
  - intros i j Hi Hj. rewrite entry_transpose by assumption.
    rewrite !reference_distance_entry by assumption. apply euclid_sym.
Qed.

Lemma reference_distance_pairwise_diag (eps : R) :
  distance_pairwise_diag (reference_lib eps).
Proof.
  intros a b Hab.
  assert (Hn : length (distance (GpLib := reference_lib eps) a b) = length a)
    by apply (reference_distance_shape eps a b).
  apply (nth_ext _ _ 0 0).
  - rewrite diag_length, Hn. simpl. now apply map2_length.
  - intros i Hi. simpl in Hi. rewrite map2_length in Hi by assumption.
    rewrite diag_nth by (rewrite Hn; exact Hi).
    rewrite reference_distance_entry by lia.
    simpl. apply (map2_nth euclid a b [] [] 0); lia.
Qed.

(* ================================================================= *)
(** ** The cross-covariance branch *)

Section CrossCovariance.

Context {L : GpLib}.

Variables (x y : ndarray) (a b : R) (rest : vector).

Hypothesis Hs : scale_keeps_rows L.
Hypothesis Hd : distance_shape L.

Lemma cross_cov_transpose :
  distance_transposes L ->
  cross_cov 2 (rows y) (rows x) (exp a) (exp b)
  = transpose (shape0 y) (cross_cov 2 (rows x) (rows y) (exp a) (exp b)).
Proof.
  intros Ht.
  set (xs := scale (rows x) (exp b)). set (ys := scale (rows y) (exp b)).
  assert (Hx : length xs = shape0 x) by apply Hs.
  assert (Hy : length ys = shape0 y) by apply Hs.
  assert (Hxy := cross_cov_shape 2 (exp a) (exp b) (rows x) (rows y) Hd).
  assert (Hyx := cross_cov_shape 2 (exp a) (exp b) (rows y) (rows x) Hd).
  fold xs ys in Hxy, Hyx.
  apply (@mat_ext _ _ (length ys) (length xs)).
  - exact Hyx.
  - rewrite <- Hy. rewrite <- (proj1 Hxy). apply transpose_shape.
  - intros i j Hi Hj. rewrite <- Hy, entry_transpose by assumption.
    rewrite !cross_cov_entry by assumption. fold xs ys.
    rewrite <- (Ht xs ys), entry_transpose by assumption. reflexivity.
Qed.

Lemma cross_cov_diag :
  shape0 y = shape0 x ->
  diag (cross_cov 2 (rows x) (rows y) (exp a) (exp b))
  = map (fun d => exp a * maternp 2 d)
        (diag (distance (scale (rows x) (exp b)) (scale (rows y) (exp b)))).
Proof.
  intros Hn.
  set (xs := scale (rows x) (exp b)). set (ys := scale (rows y) (exp b)).
  assert (Hx : length xs = shape0 x) by apply Hs.
  assert (Hy : length ys = shape0 y) by apply Hs.
  assert (Hxy := cross_cov_shape 2 (exp a) (exp b) (rows x) (rows y) Hd).
  fold xs ys in Hxy.
  assert (HD : length (distance xs ys) = length xs) by apply Hd.
  unfold diag. rewrite map_map, (proj1 Hxy), HD.
  apply map_ext_in. intros i Hi. apply in_seq in Hi.
  apply cross_cov_entry; fold xs ys; try assumption; lia.
Qed.

End CrossCovariance.

(** X1.  The covariance of [y] against [x] is the transpose of the
    covariance of [x] against [y], for two array objects and a library whose
    distance matrix transposes when its arguments are exchanged. *)
Theorem cross_covariance_transposes (L : GpLib) (x y : ndarray) (a b : R)
    (rest : vector) :
  scale_keeps_rows L -> distance_shape L -> distance_transposes L ->
  oid y <> oid x ->
  exists Kxy Kyx,
    kernel x (PyArr y) (a :: b :: rest) false = Ok (Mat Kxy) /\
    kernel y (PyArr x) (a :: b :: rest) false = Ok (Mat Kyx) /\
    has_shape (shape0 x) (shape0 y) Kxy /\
    Kyx = transpose (shape0 y) Kxy /\
    forall i j, (i < shape0 x)%nat -> (j < shape0 y)%nat ->
      entry Kyx j i = entry Kxy i j.
Proof.
  intros Hs Hd Ht Hne.
  exists (cross_cov 2 (rows x) (rows y) (exp a) (exp b)).
  exists (cross_cov 2 (rows y) (rows x) (exp a) (exp b)).
  assert (E := cross_cov_transpose x y a b Hs Hd Ht).
  split; [|split; [|split; [|split]]].
  - rewrite kernel_other, kernel_it_value by assumption. reflexivity.
  - rewrite kernel_other, kernel_it_value by (apply not_eq_sym; assumption). reflexivity.
  - unfold shape0. rewrite <- (Hs (rows x) (exp b)), <- (Hs (rows y) (exp b)).
    now apply cross_cov_shape.
  - exact E.
  - intros i j Hi Hj. rewrite E. now apply entry_transpose.
Qed.

Lemma cross_covariance_transposes_witness :
  scale_keeps_rows (reference_lib eps64) /\
  distance_shape (reference_lib eps64) /\
  distance_transposes (reference_lib eps64) /\
  oid y3 <> oid x1 /\
  exists Kxy Kyx,
    kernel (L := reference_lib eps64) x1 (PyArr y3) covparam false = Ok (Mat Kxy) /\
    kernel (L := reference_lib eps64) y3 (PyArr x1) covparam false = Ok (Mat Kyx) /\
    has_shape 1 3 Kxy /\
    Kyx = transpose 3 Kxy.
Proof.
  assert (Hs := reference_scale_keeps_rows eps64).
  assert (Hd := reference_distance_shape eps64).
  assert (Ht := reference_distance_transposes eps64).
  assert (Hne : oid y3 <> oid x1) by (simpl; lia).
  repeat (split; [assumption|]).
  destruct (@cross_covariance_transposes (reference_lib eps64) x1 y3
              (ln (0.5 ^ 2)) (ln (1 / 0.7)) [] Hs Hd Ht Hne)
    as [Kxy [Kyx [H1 [H2 [H3 [H4 _]]]]]].
  exists Kxy, Kyx. repeat split; try assumption; apply H3.
Defined.

(** X2.  In the cross-covariance branch, for as many points in [y] as in
    [x], the vector of [pairwise=True] is the diagonal of the matrix of
    [pairwise=False]: no nugget separates the two.  This is for a library
    whose pairwise distances are the diagonal of its distance matrix. *)
Theorem cross_pairwise_is_diagonal (L : GpLib) (x y : ndarray) (a b : R)
    (rest : vector) :
  scale_keeps_rows L -> distance_shape L -> distance_pairwise_diag L ->
  oid y <> oid x -> shape0 y = shape0 x ->
  exists v K,
    kernel x (PyArr y) (a :: b :: rest) true = Ok (Vec v) /\
    kernel x (PyArr y) (a :: b :: rest) false = Ok (Mat K) /\
    length v = shape0 x /\
    v = diag K.
Proof.
  intros Hs Hd Hp Hne Hn.
  exists (map (fun d => exp a * maternp 2 d)
              (distance_pairwise (scale (rows x) (exp b)) (scale (rows y) (exp b)))).
  exists (cross_cov 2 (rows x) (rows y) (exp a) (exp b)).
  assert (Hlen : length (scale (rows x) (exp b)) = length (scale (rows y) (exp b))).
  { rewrite !Hs. unfold shape0 in Hn. now rewrite Hn. }
  rewrite !kernel_other, !kernel_it_value by assumption.
  repeat split.
  - rewrite length_map, (Hp _ _ Hlen), diag_length.
    rewrite (proj1 (Hd _ _)). apply Hs.
  - rewrite (cross_cov_diag x y a b Hs Hd Hn). now rewrite (Hp _ _ Hlen).
Qed.

Lemma cross_pairwise_is_diagonal_witness :
  scale_keeps_rows (reference_lib eps64) /\
  distance_shape (reference_lib eps64) /\
  distance_pairwise_diag (reference_lib eps64) /\
  oid y3 <> oid x3 /\ shape0 y3 = shape0 x3 /\
  exists v K,
    kernel (L := reference_lib eps64) x3 (PyArr y3) covparam true = Ok (Vec v) /\
    kernel (L := reference_lib eps64) x3 (PyArr y3) covparam false = Ok (Mat K) /\
    v = diag K.
Proof.
  assert (Hs := reference_scale_keeps_rows eps64).
  assert (Hd := reference_distance_shape eps64).
  assert (Hp := reference_distance_pairwise_diag eps64).
  assert (Hne : oid y3 <> oid x3) by (simpl; lia).
  repeat (split; [first [assumption | reflexivity]|]).
  destruct (@cross_pairwise_is_diagonal (reference_lib eps64) x3 y3
              (ln (0.5 ^ 2)) (ln (1 / 0.7)) [] Hs Hd Hp Hne eq_refl)
    as [v [K [H1 [H2 [_ H3]]]]].
  exists v, K. repeat split; assumption.
Defined.

Lemma smul_exp_plus (a c : R) (h : array) :
  smul (exp (a + c)) h = smul (exp c) (smul (exp a) h).
Proof.
  destruct h as [v|m]; simpl; f_equal.
  - rewrite map_map. apply map_ext. intros e. rewrite exp_plus. ring.
  - rewrite map_map. apply map_ext. intros r. rewrite map_map.
    apply map_ext. intros e. rewrite exp_plus. ring.
Qed.

(** X4.  The first parameter is the logarithm of a variance scale: adding
    [c] to it multiplies by exp(c) the cross-covariance, matrix or vector,
    and the pairwise self-covariance. *)
Theorem log_variance_scales_covariance (L : GpLib) (x y : ndarray) (a b c : R)
    (rest : vector) (pairwise : bool) :
  kernel_it x y ((a + c) :: b :: rest) pairwise
  = (K <- kernel_it x y (a :: b :: rest) pairwise ;; Ok (smul (exp c) K)) /\
  kernel_ii_or_tt x ((a + c) :: b :: rest) true
  = (K <- kernel_ii_or_tt x (a :: b :: rest) true ;; Ok (smul (exp c) K)).
Proof.
  split.
  - unfold kernel_it; simpl. now rewrite smul_exp_plus.
  - change (Ok (smul (exp (a + c)) (Vec (ones1 (shape0 x))))
            = Ok (smul (exp c) (smul (exp a) (Vec (ones1 (shape0 x)))))).
    now rewrite smul_exp_plus.
Qed.

(** X5.  In the self-covariance matrix only the Matern part follows the
    variance scale: when [c] is added to the first parameter, an entry off
    the diagonal is multiplied by exp(c), and an entry of the diagonal is
    multiplied by exp(c) after the nugget [100 * gp.eps] is taken off, the
    nugget itself staying as it is. *)
Theorem nugget_is_not_scaled (L : GpLib) (x : ndarray) (a b c : R) (rest : vector) :
  scale_keeps_rows L -> distance_shape L ->
  exists K K',
    kernel x (PyArr x) (a :: b :: rest) false = Ok (Mat K) /\
    kernel x (PyArr x) ((a + c) :: b :: rest) false = Ok (Mat K') /\
    forall i j, (i < shape0 x)%nat -> (j < shape0 x)%nat ->
      entry K' i j =
      if Nat.eqb i j
      then exp c * (entry K i j - 100 * gp_eps) + 100 * gp_eps
      else exp c * entry K i j.
Proof.
  intros Hs Hd.
  exists (self_cov 2 (rows x) (exp a) (exp b) (100 * gp_eps)).
  exists (self_cov 2 (rows x) (exp (a + c)) (exp b) (100 * gp_eps)).
  rewrite !kernel_self, !kernel_ii_full by assumption.
  repeat split.
  intros i j Hi Hj.
  rewrite !self_cov_entry by (try assumption; rewrite Hs; assumption).
  rewrite exp_plus. destruct (Nat.eqb i j); ring.
Qed.

Lemma nugget_is_not_scaled_witness :
  scale_keeps_rows (reference_lib eps64) /\
  distance_shape (reference_lib eps64) /\
  exists K K',
    kernel (L := reference_lib eps64) x3 (PyArr x3) covparam false = Ok (Mat K) /\
    kernel (L := reference_lib eps64) x3 (PyArr x3)
      [ln (0.5 ^ 2) + 1; ln (1 / 0.7)] false = Ok (Mat K') /\
    entry K' 0 1 = exp 1 * entry K 0 1 /\
    entry K' 1 1 = exp 1 * (entry K 1 1 - 100 * eps64) + 100 * eps64.
Proof.
  assert (Hs := reference_scale_keeps_rows eps64).
  assert (Hd := reference_distance_shape eps64).
  repeat (split; [assumption|]).
  destruct (@nugget_is_not_scaled (reference_lib eps64) x3
              (ln (0.5 ^ 2)) (ln (1 / 0.7)) 1 [] Hs Hd) as [K [K' [H1 [H2 H3]]]].
  exists K, K'. split; [exact H1|split; [exact H2|split]].
  - apply (H3 0%nat 1%nat); unfold shape0; simpl; lia.
  - apply (H3 1%nat 1%nat); unfold shape0; simpl; lia.
Defined.

(* ================================================================= *)
(** ** An empty point set *)

Lemma has_shape_no_rows (m : nat) (k : matrix) : has_shape 0 m k -> k = [].
Proof. intros [H _]. now apply length_zero_iff_nil. Qed.

Lemma has_shape_no_cols (n : nat) (k : matrix) : has_shape n 0 k -> k = repeat [] n.
Proof.
  intros [Hn Hf]. subst n. induction Hf as [|r k Hr Hf IH]; simpl; [reflexivity|].
  apply length_zero_iff_nil in Hr. now rewrite Hr, <- IH.
Qed.

(** X7.  On a point set with no point the kernel raises nothing and returns
    empty arrays: the empty vector and the empty matrix for the
    self-covariance, a matrix with no row for the covariance against another
    array [y], and a matrix of [len(y)] empty rows for the covariance of [y]
    against it; [constant_mean] returns a basis with no row. *)
Theorem kernel_on_empty_point_set (L : GpLib) (x y : ndarray) (a b : R)
    (rest : vector) :
  scale_keeps_rows L -> distance_shape L ->
  rows x = [] -> oid y <> oid x ->
  kernel x (PyArr x) (a :: b :: rest) true = Ok (Vec []) /\
  kernel x (PyArr x) (a :: b :: rest) false = Ok (Mat []) /\
  kernel x (PyArr y) (a :: b :: rest) false = Ok (Mat []) /\
  kernel y (PyArr x) (a :: b :: rest) false = Ok (Mat (repeat [] (shape0 y))) /\
  constant_mean x PyNone = Some [].
Proof.
  intros Hs Hd Hx Hne.
  assert (H0 : shape0 x = 0%nat) by (unfold shape0; now rewrite Hx).
  assert (Hxs : length (scale (rows x) (exp b)) = 0%nat) by (rewrite Hs; exact H0).
  split; [|split; [|split; [|split]]].
  - rewrite kernel_self, kernel_ii_pairwise, H0. reflexivity.
  - rewrite kernel_self, kernel_ii_full by assumption. do 2 f_equal.
    apply (@has_shape_no_rows 0). rewrite <- Hxs at 1 2. now apply self_cov_shape.
  - rewrite kernel_other, kernel_it_value by assumption. do 2 f_equal.
    apply (@has_shape_no_rows (length (scale (rows y) (exp b)))).
    rewrite <- Hxs. now apply cross_cov_shape.
  - rewrite kernel_other, kernel_it_value by (apply not_eq_sym; assumption). do 2 f_equal.
    apply has_shape_no_cols. unfold shape0. rewrite <- (Hs (rows y) (exp b)), <- Hxs.
    now apply cross_cov_shape.
  - unfold constant_mean. now rewrite H0.
Qed.

Lemma kernel_on_empty_point_set_witness :
  scale_keeps_rows (reference_lib eps64) /\
  distance_shape (reference_lib eps64) /\
  kernel (L := reference_lib eps64) (mk_ndarray 2 1 []) (PyArr (mk_ndarray 2 1 []))
    covparam false = Ok (Mat []) /\
  kernel (L := reference_lib eps64) x3 (PyArr (mk_ndarray 2 1 [])) covparam false
  = Ok (Mat [[]; []; []]).
Proof.
  assert (Hs := reference_scale_keeps_rows eps64).
  assert (Hd := reference_distance_shape eps64).
  repeat (split; [assumption|]).
  assert (Hne : oid x3 <> oid (mk_ndarray 2 1 [])) by (simpl; lia).
  destruct (@kernel_on_empty_point_set (reference_lib eps64) (mk_ndarray 2 1 []) x3
              (ln (0.5 ^ 2)) (ln (1 / 0.7)) [] Hs Hd eq_refl Hne)
    as [_ [H2 [_ [H4 _]]]].
  split; [exact H2|exact H4].
Defined.

(* ================================================================= *)
(** ** The clamp, as a projection *)

Lemma Rmax_0_fixed (e : R) : Rmax e 0 = e <-> 0 <= e.
Proof.
  split; intros H.
  - rewrite <- H. apply Rmax_r.
  - now apply Rmax_left.
Qed.

(** X8.  The clamp [np.maximum(v, 0)] changes a vector exactly when it has
    a negative entry; applying it a second time changes nothing; and no
    entry is ever lowered. *)
Theorem clamp_is_a_projection (v : vector) :
  (np_maximum v 0 = v <-> Forall (fun e => 0 <= e) v) /\
  np_maximum (np_maximum v 0) 0 = np_maximum v 0 /\
  Forall2 Rle v (np_maximum v 0).
Proof.
  unfold np_maximum. split; [|split].
  - induction v as [|e v IH]; simpl.
    + split; [constructor|reflexivity].
    + split.
      * intros H. injection H as He Hv. constructor; [now apply Rmax_0_fixed|now apply IH].
      * intros H. inversion H; subst. f_equal; [now apply Rmax_0_fixed|now apply IH].
  - rewrite map_map. apply map_ext. intros e. apply Rmax_left, Rmax_r.
  - induction v as [|e v IH]; simpl; constructor; [apply Rmax_l|exact IH].
Qed.

(* ================================================================= *)
(** ** The dataset *)

Lemma take_ok (A : Type) (x : list A) (ind : list nat) (d : A) :
  Forall (fun i => (i < length x)%nat) ind ->
  take x ind = Ok (map (fun i => nth i x d) ind).
Proof.
  intros H. unfold take. induction H as [|i ind Hi H IH]; simpl; [reflexivity|].
  rewrite (nth_error_nth' x d Hi). simpl. now rewrite IH.
Qed.

(** Distinct indices select distinct entries of a list without repetition. *)
Lemma NoDup_take (A : Type) (x : list A) (ind : list nat) (d : A) :
  NoDup x -> NoDup ind -> Forall (fun i => (i < length x)%nat) ind ->
  NoDup (map (fun i => nth i x d) ind).
Proof.
  intros Hx Hind Hlt. induction Hind as [|i ind Hi Hind IH]; simpl; constructor.
  - intros Hin. apply in_map_iff in Hin as [j [E Hj]].
    inversion Hlt as [|? ? Hil Hrest]; subst.
    rewrite Forall_forall in Hrest.
    assert (j = i).
    { apply (proj1 (NoDup_nth x d) Hx); auto. }
    subst j. contradiction.
  - apply IH. now inversion Hlt.
Qed.

Section GenerateData.

Context {M : GpMisc}.

Variables (draw : list nat) (next : nat).

Hypothesis Hgrid : regulargrid_shape M.
Hypothesis Hbumps : twobumps_shape M.
Hypothesis Hdraw : choice_outcome 200 5 draw.

(** What the call returns, written out. *)
Lemma generate_data_value :
  generate_data draw next =
  Ok (mk_ndarray next 1 (regulargrid 1 200 [[-1]; [1]]),
      twobumps (regulargrid 1 200 [[-1]; [1]]),
      mk_ndarray (S next) 1
        (map (fun i => nth i (regulargrid 1 200 [[-1]; [1]]) []) draw),
      map (fun i => nth i (twobumps (regulargrid 1 200 [[-1]; [1]])) 0) draw,
      S (S next)).
Proof.
  destruct Hdraw as [_ [_ Hlt]].
  unfold generate_data, alloc. cbn [rows ncols].
  set (G := regulargrid 1 200 [[-1]; [1]]).
  assert (HG : length G = 200%nat) by apply Hgrid.
  rewrite (@take_ok _ G draw []) by (now rewrite HG).
  cbn [bind].
  rewrite (@take_ok _ (twobumps G) draw 0) by (now rewrite Hbumps, HG).
  reflexivity.
Qed.

End GenerateData.

(** X9.  For every draw of the five indices [generate_data] returns without
    raising, and the arrays fit together: 200 target points with 200 values,
    5 training points with 5 observations, one coordinate per point in both
    point sets. *)
Theorem generate_data_shapes (M : GpMisc) (draw : list nat) (next : nat) :
  regulargrid_shape M -> twobumps_shape M -> choice_outcome 200 5 draw ->
  exists xt zt xi zi next',
    generate_data draw next = Ok (xt, zt, xi, zi, next') /\
    has_shape 200 1 (rows xt) /\ ncols xt = 1%nat /\ length zt = 200%nat /\
    has_shape 5 1 (rows xi) /\ ncols xi = 1%nat /\ length zi = 5%nat.
Proof.
  intros Hgrid Hbumps Hdraw.
  do 5 eexists. split; [now apply generate_data_value|].
  destruct Hdraw as [Hlen [_ Hlt]]. cbn [rows ncols].
  assert (HG : has_shape 200 1 (regulargrid 1 200 [[-1]; [1]])) by apply Hgrid.
  split; [exact HG|split; [reflexivity|split; [|split; [|split]]]].
  - rewrite Hbumps. apply HG.
  - split; [now rewrite length_map|].
    apply Forall_forall. intros r Hr. apply in_map_iff in Hr as [i [<- Hi]].
    rewrite Forall_forall in Hlt. apply (has_shape_row HG). now apply Hlt.
  - reflexivity.
  - now rewrite length_map.
Qed.

(** X10.  The training set is a sample of the target set, and the
    observations stay aligned with the points: the k-th training point and
    the k-th observation are the target point and the target value at the
    same index, the k-th index drawn. *)
Theorem generate_data_alignment (M : GpMisc) (draw : list nat) (next : nat) :
  regulargrid_shape M -> twobumps_shape M -> choice_outcome 200 5 draw ->
  exists xt zt xi zi next',
    generate_data draw next = Ok (xt, zt, xi, zi, next') /\
    forall k, (k < 5)%nat ->
      (nth k draw 0 < 200)%nat /\
      nth k (rows xi) [] = nth (nth k draw 0%nat) (rows xt) [] /\
      nth k zi 0 = nth (nth k draw 0%nat) zt 0.
Proof.
  intros Hgrid Hbumps Hdraw.
  do 5 eexists. split; [now apply generate_data_value|].
  destruct Hdraw as [Hlen [_ Hlt]]. cbn [rows].
  intros k Hk. rewrite <- Hlen in Hk. split; [|split].
  - rewrite Forall_forall in Hlt. apply Hlt. now apply nth_In.
  - set (G := regulargrid 1 200 [[-1]; [1]]).
    rewrite (nth_indep _ [] ((fun i => nth i G []) 0%nat)) by (now rewrite length_map).
    apply (map_nth (fun i => nth i G [])).
  - set (Z := twobumps (regulargrid 1 200 [[-1]; [1]])).
    rewrite (nth_indep _ 0 ((fun i => nth i Z 0) 0%nat)) by (now rewrite length_map).
    apply (map_nth (fun i => nth i Z 0)).
Qed.

(** X11.  Drawing without replacement gives no training point twice: when
    the points of the grid are distinct, so are the five training points. *)
Theorem generate_data_distinct_points (M : GpMisc) (draw : list nat) (next : nat) :
  regulargrid_shape M -> twobumps_shape M -> choice_outcome 200 5 draw ->
  NoDup (regulargrid 1 200 [[-1]; [1]]) ->
  exists xt zt xi zi next',
    generate_data draw next = Ok (xt, zt, xi, zi, next') /\
    NoDup (rows xi).
Proof.
  intros Hgrid Hbumps Hdraw Hnd.
  do 5 eexists. split; [now apply generate_data_value|].
  destruct Hdraw as [_ [Hind Hlt]]. cbn [rows].
  apply NoDup_take; try assumption.
  now rewrite (proj1 (Hgrid 200%nat [[-1]; [1]])).
Qed.

(** X12.  The training points are a new array object, not the array of the
    target points.  So with the arrays of [generate_data] the kernel takes
    its cross-covariance branch for (xi, xt) and for (xt, xi), and its
    self-covariance branch for (xi, xi) and (xt, xt). *)
Theorem generate_data_new_object (M : GpMisc) (L : GpLib) (draw : list nat)
    (next : nat) :
  regulargrid_shape M -> twobumps_shape M -> choice_outcome 200 5 draw ->
  exists xt zt xi zi next',
    generate_data draw next = Ok (xt, zt, xi, zi, next') /\
    oid xi <> oid xt /\
    forall param pairwise,
      kernel xi (PyArr xt) param pairwise = kernel_it xi xt param pairwise /\
      kernel xt (PyArr xi) param pairwise = kernel_it xt xi param pairwise /\
      kernel xi (PyArr xi) param pairwise = kernel_ii_or_tt xi param pairwise /\
      kernel xt (PyArr xt) param pairwise = kernel_ii_or_tt xt param pairwise.
Proof.
  intros Hgrid Hbumps Hdraw.
  do 5 eexists. split; [now apply generate_data_value|].
  cbn [oid]. split; [lia|].
  intros param pairwise. repeat split.
  - apply kernel_other. cbn [oid]. lia.
  - apply kernel_other. cbn [oid]. lia.
  - apply kernel_self.
  - apply kernel_self.
Qed.

(* ================================================================= *)
(** ** The reference grid and the sample draw *)

Lemma reference_regulargrid_shape : regulargrid_shape reference_misc.
Proof.
  intros nt box. simpl. unfold linspace_grid. split.
  - now rewrite length_map, length_seq.
  - apply Forall_forall. intros r Hr. apply in_map_iff in Hr as [k [<- _]]. reflexivity.
Qed.

Lemma reference_twobumps_shape : twobumps_shape reference_misc.
Proof. intros x. simpl. apply length_map. Qed.

Lemma draw5_outcome : choice_outcome 200 5 draw5.
Proof.
  unfold choice_outcome, draw5. split; [reflexivity|split].
  - repeat (apply NoDup_cons; [simpl; intuition lia|]). apply NoDup_nil.
  - repeat (apply Forall_cons; [lia|]). apply Forall_nil.
Qed.

Lemma NoDup_map_injective (A B : Type) (f : A -> B) (l : list A) :
  (forall u v, f u = f v -> u = v) -> NoDup l -> NoDup (map f l).
Proof.
  intros Hf Hl. induction Hl as [|e l He Hl IH]; simpl; constructor; [|exact IH].
  intros Hin. apply in_map_iff in Hin as [e' [E He']].
  apply Hf in E. now subst e'.
Qed.

(** The points of a grid between two different bounds are distinct. *)
Lemma linspace_grid_NoDup (nt : nat) (box : matrix) :
  (2 <= nt)%nat -> entry box 1 0 <> entry box 0 0 -> NoDup (linspace_grid nt box).
Proof.
  intros Hnt Hbox. unfold linspace_grid.
  apply NoDup_map_injective; [|apply seq_NoDup].
  intros k k' E. injection E as E.
  apply Rplus_eq_reg_l in E. unfold Rdiv in E.
  apply Rmult_eq_reg_r in E; [|apply Rinv_neq_0_compat, not_0_INR; lia].
  apply Rmult_eq_reg_l in E; [|lra].
  now apply INR_eq.
Qed.

Lemma reference_grid_NoDup :
  NoDup (regulargrid (GpMisc := reference_misc) 1 200 [[-1]; [1]]).
Proof.
  apply linspace_grid_NoDup; [lia|]. unfold entry; simpl. lra.
Qed.

Lemma generate_data_shapes_witness :
  regulargrid_shape reference_misc /\ twobumps_shape reference_misc /\
  choice_outcome 200 5 draw5 /\
  exists xt zt xi zi next',
    generate_data (M := reference_misc) draw5 0 = Ok (xt, zt, xi, zi, next') /\
    has_shape 5 1 (rows xi) /\ length zi = 5%nat /\ ncols xi = ncols xt.
Proof.
  assert (Hg := reference_regulargrid_shape).
  assert (Hb := reference_twobumps_shape).
  assert (Hd := draw5_outcome).
  repeat (split; [assumption|]).
  destruct (@generate_data_shapes reference_misc draw5 0 Hg Hb Hd)
    as [xt [zt [xi [zi [n' [E [_ [Hc [_ [Hxi [Hc' Hzi]]]]]]]]]]].
  exists xt, zt, xi, zi, n'. repeat split; try assumption; try apply Hxi.
  now rewrite Hc, Hc'.
Defined.

Lemma generate_data_alignment_witness :
  regulargrid_shape reference_misc /\ twobumps_shape reference_misc /\
  choice_outcome 200 5 draw5 /\
  exists xt zt xi zi next',
    generate_data (M := reference_misc) draw5 0 = Ok (xt, zt, xi, zi, next') /\
    nth 1 (rows xi) [] = nth 45 (rows xt) [] /\
    nth 1 zi 0 = nth 45 zt 0.
Proof.
  assert (Hg := reference_regulargrid_shape).
  assert (Hb := reference_twobumps_shape).
  assert (Hd := draw5_outcome).
  repeat (split; [assumption|]).
  destruct (@generate_data_alignment reference_misc draw5 0 Hg Hb Hd)
    as [xt [zt [xi [zi [n' [E H]]]]]].
  exists xt, zt, xi, zi, n'. split; [exact E|].
  destruct (H 1%nat) as [_ [H1 H2]]; [lia|]. split; assumption.
Defined.

Lemma generate_data_distinct_points_witness :
  regulargrid_shape reference_misc /\ twobumps_shape reference_misc /\
  choice_outcome 200 5 draw5 /\
  NoDup (regulargrid (GpMisc := reference_misc) 1 200 [[-1]; [1]]) /\
  exists xt zt xi zi next',
    generate_data (M := reference_misc) draw5 0 = Ok (xt, zt, xi, zi, next') /\
    NoDup (rows xi).
Proof.
  assert (Hg := reference_regulargrid_shape).
  assert (Hb := reference_twobumps_shape).
  assert (Hd := draw5_outcome).
  assert (Hn := reference_grid_NoDup).
  repeat (split; [assumption|]).
  apply (@generate_data_distinct_points reference_misc draw5 0 Hg Hb Hd Hn).
Defined.

Lemma generate_data_new_object_witness :
  regulargrid_shape reference_misc /\ twobumps_shape reference_misc /\
  choice_outcome 200 5 draw5 /\
  exists xt zt xi zi next',
    generate_data (M := reference_misc) draw5 0 = Ok (xt, zt, xi, zi, next') /\
    oid xi <> oid xt /\
    kernel (L := reference_lib eps64) xi (PyArr xt) covparam false
    = kernel_it (L := reference_lib eps64) xi xt covparam false.
Proof.
  assert (Hg := reference_regulargrid_shape).
  assert (Hb := reference_twobumps_shape).
  assert (Hd := draw5_outcome).
  repeat (split; [assumption|]).
  destruct (@generate_data_new_object reference_misc (reference_lib eps64) draw5 0 Hg Hb Hd)
    as [xt [zt [xi [zi [n' [E [Hne H]]]]]]].
  exists xt, zt, xi, zi, n'. split; [exact E|split; [exact Hne|]].
  apply (H covparam false).
Defined.

(* ================================================================= *)
(** ** Bounds on the Matern correlation of regularity 5/2 *)

Lemma exp_quartic (t : R) : 0 <= t -> (1 + t / 4) ^ 4 <= exp t.
Proof.
  intros Ht.
  replace (exp t) with (exp (t / 4) * exp (t / 4) * (exp (t / 4) * exp (t / 4)))
    by (rewrite <- !exp_plus; f_equal; field).
  assert (H := exp_ineq1_le (t / 4)).
  set (e := exp (t / 4)) in *. set (q := 1 + t / 4) in *.
  assert (Hq : 0 <= q) by (unfold q; lra).
  assert (H2 : q * q <= e * e) by nra.
  assert (Hq2 : 0 <= q * q) by nra.
  replace (q ^ 4) with (q * q * (q * q)) by ring. nra.
Qed.

Lemma exp_neg_quartic (t : R) : 0 <= t -> exp (- t) * (1 + t / 4) ^ 4 <= 1.
Proof.
  intros Ht. assert (H := exp_quartic Ht). assert (Hp := exp_pos (- t)).
  apply Rle_trans with (exp (- t) * exp t).
  - apply Rmult_le_compat_l; lra.
  - rewrite <- exp_plus, Rplus_opp_l, exp_0. lra.
Qed.

Lemma matern52_upper (t : R) :
  0 <= t -> matern52 t * (1 + t / 4) ^ 4 <= 1 + t + t ^ 2 / 3.
Proof.
  intros Ht. unfold matern52. assert (H := exp_neg_quartic Ht).
  assert (Hp : 0 <= 1 + t + t ^ 2 / 3) by nra.
  set (e := exp (- t)) in *. set (q := (1 + t / 4) ^ 4) in *.
  replace (e * (1 + t + t ^ 2 / 3) * q) with (e * q * (1 + t + t ^ 2 / 3)) by ring.
  nra.
Qed.

Lemma matern52_le_1 (t : R) : 0 <= t -> matern52 t <= 1.
Proof.
  intros Ht. assert (H := matern52_upper Ht).
  assert (Hp : 0 <= matern52 t).
  { unfold matern52. assert (He := exp_pos (- t)). nra. }
  assert (Hq : 1 + t + t ^ 2 / 3 <= (1 + t / 4) ^ 4).
  { replace ((1 + t / 4) ^ 4)
      with (1 + t + t ^ 2 / 3 + (t ^ 2 / 24 + t * t ^ 2 / 16 + t ^ 2 * t ^ 2 / 256)) by field.
    assert (0 <= t ^ 2) by nra. nra. }
  assert (H1 : 1 <= (1 + t / 4) ^ 4).
  { assert (0 <= t ^ 2) by nra. nra. }
  nra.
Qed.

Lemma matern52_lower (t : R) :
  0 <= t -> (1 - t) * (1 + t + t ^ 2 / 3) <= matern52 t.
Proof.
  intros Ht. unfold matern52. assert (H := exp_ineq1_le (- t)).
  assert (Hp : 0 <= 1 + t + t ^ 2 / 3) by nra.
  apply Rmult_le_compat_r; lra.
Qed.

Lemma matern_stk_52 (h : R) : matern_stk 2 h = matern52 (sqrt 5 * (sqrt 2 * h)).
Proof.
  unfold matern_stk, matern_ref, matern52.
  assert (E5 : INR (2 * 2 + 1) = 5) by (simpl; lra).
  rewrite E5. set (t := sqrt 5 * (sqrt 2 * h)).
  simpl. field.
Qed.

(** The reduced distance of a distance sqrt(d). *)
Lemma reduced_distance (d : R) :
  0 <= d ->
  0 <= sqrt 5 * (sqrt 2 * sqrt d) /\
  (sqrt 5 * (sqrt 2 * sqrt d)) * (sqrt 5 * (sqrt 2 * sqrt d)) = 10 * d.
Proof.
  intros Hd.
  assert (H5 := sqrt_pos 5). assert (H2 := sqrt_pos 2). assert (H0 := sqrt_pos d).
  assert (E5 : sqrt 5 * sqrt 5 = 5) by (apply sqrt_sqrt; lra).
  assert (E2 : sqrt 2 * sqrt 2 = 2) by (apply sqrt_sqrt; lra).
  assert (E0 : sqrt d * sqrt d = d) by (apply sqrt_sqrt; lra).
  split.
  - apply Rmult_le_pos; [assumption|apply Rmult_le_pos; assumption].
  - replace (sqrt 5 * (sqrt 2 * sqrt d) * (sqrt 5 * (sqrt 2 * sqrt d)))
      with (sqrt 5 * sqrt 5 * (sqrt 2 * sqrt 2) * (sqrt d * sqrt d)) by ring.
    rewrite E5, E2, E0. ring.
Qed.

(* ================================================================= *)
(** ** The instance with the regularised distance *)

Section Regularized.

Variables eps alpha : R.

Lemma regularized_scale_keeps_rows : scale_keeps_rows (regularized_lib eps alpha).
Proof. intros x r. simpl. apply length_map. Qed.

Lemma regularized_distance_shape : distance_shape (regularized_lib eps alpha).
Proof.
  intros a b; simpl. split; [apply length_map|].
  apply Forall_forall. intros r Hr.
  apply in_map_iff in Hr as [u [<- _]]. apply length_map.
Qed.

Lemma regularized_distance_entry (a b : matrix) i j :
  (i < length a)%nat -> (j < length b)%nat ->
  entry (distance (GpLib := regularized_lib eps alpha) a b) i j
  = reg_dist alpha (nth i a []) (nth j b []).
Proof.
  intros Hi Hj. unfold entry; simpl.
  rewrite (nth_indep _ [] ((fun u => map (reg_dist alpha u) b) []))
    by (now rewrite length_map).
  rewrite (map_nth (fun u => map (reg_dist alpha u) b)).
  rewrite (nth_indep _ 0 (reg_dist alpha (nth i a []) [])) by (now rewrite length_map).
  apply map_nth.
Qed.

Lemma regularized_distance_symmetric : distance_symmetric (regularized_lib eps alpha).
Proof.
  intros a. apply (@symmetric_intro _ (length a)).
  - apply (regularized_distance_shape a a).
  - intros i j Hi Hj. rewrite !regularized_distance_entry by assumption.
    unfold reg_dist. now rewrite sq_dist_sym.
Qed.

(** Entry (i, j) of the self-covariance matrix of this instance. *)
Lemma regularized_self_cov_entry (pts : matrix) (s r g : R) i j :
  (i < length pts)%nat -> (j < length pts)%nat ->
  entry (self_cov (L := regularized_lib eps alpha) 2 pts s r g) i j
  = s * matern52 (sqrt 5 * (sqrt 2 * reg_dist alpha (nth i (map (map (Rmult r)) pts) [])
                                               (nth j (map (map (Rmult r)) pts) [])))
    + g * (if Nat.eqb i j then 1 else 0).
Proof.
  intros Hi Hj.
  assert (Hs := regularized_scale_keeps_rows).
  rewrite (self_cov_entry (L := regularized_lib eps alpha));
    [|apply regularized_distance_shape|rewrite Hs; exact Hi|rewrite Hs; exact Hj].
  rewrite regularized_distance_entry by (rewrite Hs; assumption).
  simpl maternp. rewrite matern_stk_52. reflexivity.
Qed.

End Regularized.

(** The Matern correlation at the regularised distance of a point to
    itself, sqrt(1e-8): a little below 1. *)
Lemma matern52_self_bounds :
  1 - 1e-7 <= matern52 (sqrt 5 * (sqrt 2 * sqrt alpha8)) <= 1 - 4e-9.
Proof.
  assert (Ha : 0 <= alpha8) by (unfold alpha8; lra).
  destruct (reduced_distance Ha) as [Ht Ht2].
  set (t := sqrt 5 * (sqrt 2 * sqrt alpha8)) in *. unfold alpha8 in Ht2.
  assert (Ht3 : t <= 1e-3) by nra.
  assert (Hlow := matern52_lower Ht). assert (Hup := matern52_upper Ht).
  assert (Hm : matern52 t <= 1) by (now apply matern52_le_1).
  assert (Hm0 : 0 <= matern52 t).
  { unfold matern52. assert (He := exp_pos (- t)). nra. }
  set (m := matern52 t) in *.
  replace (t ^ 2) with (t * t) in * by ring. rewrite Ht2 in Hlow, Hup.
  split.
  - assert (0 <= t * (10 * 1e-8)) by nra. nra.
  - replace ((1 + t / 4) ^ 4)
      with (1 + t + 10 * 1e-8 / 3
            + (10 * 1e-8 / 24 + t * (10 * 1e-8) / 16 + (10 * 1e-8) * (10 * 1e-8) / 256)) in Hup
      by (rewrite <- Ht2; field).
    set (P := 1 + t + 10 * 1e-8 / 3) in *.
    assert (HP : 1 <= P <= 1.0011) by (unfold P; lra).
    assert (Hd : m * (P + 10 * 1e-8 / 24) <= P) by nra.
    destruct (Rle_or_lt m (1 - 4e-9)) as [H|H]; [exact H|].
    assert (Hc : (1 - 4e-9) * (P + 10 * 1e-8 / 24) < m * (P + 10 * 1e-8 / 24))
      by (apply Rmult_lt_compat_r; lra).
    lra.
Qed.

(** The Matern correlation between the two points of [x2], at distance
    5/7 after scaling: well below 1. *)
Lemma matern52_pair_bound :
  matern52 (sqrt 5 * (sqrt 2 * sqrt (alpha8 + 25 / 49))) <= 0.9.
Proof.
  assert (Ha : 0 <= alpha8 + 25 / 49) by (unfold alpha8; lra).
  destruct (reduced_distance Ha) as [Ht Ht2].
  set (u := sqrt 5 * (sqrt 2 * sqrt (alpha8 + 25 / 49))) in *. unfold alpha8 in Ht2.
  assert (Hu1 : 2.25 <= u) by nra.
  assert (Hu2 : u <= 2.27) by nra.
  assert (Hup := matern52_upper Ht).
  assert (Hm0 : 0 <= matern52 u).
  { unfold matern52. assert (He := exp_pos (- u)). nra. }
  set (m := matern52 u) in *.
  assert (Hw : 2.44 <= (1 + u / 4) * (1 + u / 4)) by nra.
  assert (Hq : 5.95 <= (1 + u / 4) ^ 4).
  { replace ((1 + u / 4) ^ 4) with ((1 + u / 4) * (1 + u / 4) * ((1 + u / 4) * (1 + u / 4)))
      by ring.
    nra. }
  assert (HP : 1 + u + u ^ 2 / 3 <= 4.98).
  { replace (u ^ 2) with (u * u) by ring. rewrite Ht2. lra. }
  destruct (Rle_or_lt m 0.9) as [H|H]; [exact H|].
  assert (Hc : 0.9 * 5.95 < m * (1 + u / 4) ^ 4) by nra.
  lra.
Qed.

(* ================================================================= *)
(** ** The pairwise self-covariance and the diagonal *)

Lemma nth_repeat_lt (A : Type) (e d : A) (n i : nat) :
  (i < n)%nat -> nth i (repeat e n) d = e.
Proof.
  intros Hi. apply (repeat_spec n e). apply nth_In. now rewrite repeat_length.
Qed.

(** C3, as the code has it.  The pairwise self-covariance is the vector
    with exp(param[0]) at every point.  Entry i of the diagonal of the full
    self-covariance matrix is that pairwise entry multiplied by the Matern
    profile at the library's distance from the scaled point i to itself, plus
    the nugget [100 * gp.eps].  The pairwise vector is the diagonal only up
    to this factor and this nugget. *)
Theorem pairwise_and_diagonal (L : GpLib) (x : ndarray) (a b : R) (rest : vector) :
  scale_keeps_rows L -> distance_shape L ->
  exists v K,
    kernel x (PyArr x) (a :: b :: rest) true = Ok (Vec v) /\
    kernel x (PyArr x) (a :: b :: rest) false = Ok (Mat K) /\
    v = repeat (exp a) (shape0 x) /\
    length (diag K) = shape0 x /\
    forall i, (i < shape0 x)%nat ->
      nth i (diag K) 0 =
      nth i v 0
      * maternp 2 (entry (distance (scale (rows x) (exp b)) (scale (rows x) (exp b))) i i)
      + 100 * gp_eps.
Proof.
  intros Hs Hd.
  exists (repeat (exp a) (shape0 x)).
  exists (self_cov 2 (rows x) (exp a) (exp b) (100 * gp_eps)).
  rewrite !kernel_self, kernel_ii_pairwise, kernel_ii_full by assumption.
  assert (Hn : length (self_cov 2 (rows x) (exp a) (exp b) (100 * gp_eps)) = shape0 x).
  { destruct (self_cov_shape 2 (exp a) (exp b) (100 * gp_eps) (rows x) Hd) as [-> _].
    apply Hs. }
  split; [reflexivity|split; [reflexivity|split; [reflexivity|split]]].
  - now rewrite diag_length.
  - intros i Hi. rewrite diag_nth by (rewrite Hn; exact Hi).
    rewrite self_cov_entry by (try assumption; rewrite Hs; exact Hi).
    rewrite Nat.eqb_refl, nth_repeat_lt by assumption. ring.
Qed.

Lemma pairwise_and_diagonal_witness :
  scale_keeps_rows (regularized_lib eps64 alpha8) /\
  distance_shape (regularized_lib eps64 alpha8) /\
  exists v K,
    kernel (L := regularized_lib eps64 alpha8) x3 (PyArr x3) covparam true = Ok (Vec v) /\
    kernel (L := regularized_lib eps64 alpha8) x3 (PyArr x3) covparam false = Ok (Mat K) /\
    v = repeat (exp (ln (0.5 ^ 2))) 3 /\
    length (diag K) = 3%nat.
Proof.
  assert (Hs := regularized_scale_keeps_rows eps64 alpha8).
  assert (Hd := regularized_distance_shape eps64 alpha8).
  repeat (split; [assumption|]).
  destruct (@pairwise_and_diagonal (regularized_lib eps64 alpha8) x3
              (ln (0.5 ^ 2)) (ln (1 / 0.7)) [] Hs Hd) as [v [K [H1 [H2 [H3 [H4 _]]]]]].
  exists v, K. repeat split; assumption.
Defined.

(** The diagonal of the self-covariance matrix of the instance with the
    regularised distance, at the example's parameters. *)
Lemma regularized_self_cov_diag_entry (x : ndarray) (i : nat) :
  (i < shape0 x)%nat ->
  entry (self_cov (L := regularized_lib eps64 alpha8) 2 (rows x) (exp (ln (0.5 ^ 2)))
           (exp (ln (1 / 0.7))) (100 * eps64)) i i
  = 0.25 * matern52 (sqrt 5 * (sqrt 2 * sqrt alpha8)) + 100 * eps64.
Proof.
  intros Hi. rewrite regularized_self_cov_entry by exact Hi.
  unfold reg_dist. rewrite sq_dist_refl, Rplus_0_r, Nat.eqb_refl, covparam_sigma2. ring.
Qed.

(** C3 as stated fails: for the three points of the scenario and the
    example's parameters the pairwise self-covariance is not the diagonal of
    the full self-covariance matrix, with a distance that is 0 from a point
    to itself (the diagonal is larger by the nugget) and with the
    regularised distance (the diagonal is smaller). *)
Lemma pairwise_is_not_the_diagonal :
  (exists v K,
     kernel (L := reference_lib eps64) x3 (PyArr x3) covparam true = Ok (Vec v) /\
     kernel (L := reference_lib eps64) x3 (PyArr x3) covparam false = Ok (Mat K) /\
     v <> diag K) /\
  (exists v K,
     kernel (L := regularized_lib eps64 alpha8) x3 (PyArr x3) covparam true = Ok (Vec v) /\
     kernel (L := regularized_lib eps64 alpha8) x3 (PyArr x3) covparam false = Ok (Mat K) /\
     v <> diag K).
Proof.
  split.
  - exists (repeat (exp (ln (0.5 ^ 2))) 3).
    exists (self_cov (L := reference_lib eps64) 2 (rows x3) (exp (ln (0.5 ^ 2)))
              (exp (ln (1 / 0.7))) (100 * eps64)).
    split; [|split].
    + unfold covparam. rewrite kernel_self. apply kernel_ii_pairwise.
    + unfold covparam. rewrite kernel_self.
      apply (kernel_ii_full (L := reference_lib eps64)), reference_distance_shape.
    + rewrite (self_cov_diag (L := reference_lib eps64));
        [|apply reference_scale_keeps_rows|apply reference_distance_shape
         |apply reference_distance_zero_diag|apply reference_maternp_one_at_zero].
      simpl. intros E. assert (Hpos := eps64_pos).
      apply (f_equal (fun l => nth 0 l 0)) in E. simpl in E. lra.
  - exists (repeat (exp (ln (0.5 ^ 2))) 3).
    exists (self_cov (L := regularized_lib eps64 alpha8) 2 (rows x3) (exp (ln (0.5 ^ 2)))
              (exp (ln (1 / 0.7))) (100 * eps64)).
    split; [|split].
    + unfold covparam. rewrite kernel_self. apply kernel_ii_pairwise.
    + unfold covparam. rewrite kernel_self.
      apply (kernel_ii_full (L := regularized_lib eps64 alpha8)),
        regularized_distance_shape.
    + intros E. apply (f_equal (fun l => nth 0 l 0)) in E.
      rewrite diag_nth in E.
      2:{ destruct (self_cov_shape (L := regularized_lib eps64 alpha8) 2
                      (exp (ln (0.5 ^ 2))) (exp (ln (1 / 0.7))) (100 * eps64) (rows x3)
                      (regularized_distance_shape eps64 alpha8)) as [-> _].
          simpl. lia. }
      rewrite (@regularized_self_cov_diag_entry x3 0) in E by (unfold shape0; simpl; lia).
      rewrite nth_repeat_lt, covparam_sigma2 in E by lia.
      destruct matern52_self_bounds as [_ Hup]. unfold eps64 in E. lra.
Qed.

(* ================================================================= *)
(** ** Prediction at two training points *)

Lemma mat_2x2 (k : matrix) :
  has_shape 2 2 k ->
  k = [[entry k 0 0; entry k 0 1]; [entry k 1 0; entry k 1 1]].
Proof.
  intros [Hn Hf].
  destruct k as [|r0 [|r1 [|? ?]]]; simpl in Hn; try discriminate.
  inversion Hf as [|? ? H0 Hf']; subst. inversion Hf' as [|? ? H1 _]; subst.
  destruct r0 as [|a0 [|a1 [|? ?]]]; simpl in H0; try discriminate.
  destruct r1 as [|b0 [|b1 [|? ?]]]; simpl in H1; try discriminate.
  reflexivity.
Qed.

(** The kriging system of two points with a constant mean has one solution
    as soon as the two variances together exceed twice the covariance. *)
Lemma nonsingular_block_two_points (d1 c d2 : R) :
  d1 + d2 - 2 * c <> 0 -> nonsingular (block [[d1; c]; [c; d2]] [[1]; [1]]).
Proof.
  intros HD.
  intros [|b1 [|b2 [|b3 [|? ?]]]] Hb; simpl in Hb; try discriminate.
  set (D := d1 + d2 - 2 * c) in *.
  set (x1 := (b1 - b2 + (d2 - c) * b3) / D).
  assert (Hx1 : D * x1 = b1 - b2 + (d2 - c) * b3) by (unfold x1; field; exact HD).
  exists [x1; b3 - x1; b1 - d1 * x1 - c * (b3 - x1)]. split.
  - split; [reflexivity|]. unfold mat_vec, dot; simpl.
    f_equal; [ring|f_equal; [|f_equal; ring]].
    unfold D in Hx1. nra.
  - intros [|y1 [|y2 [|y3 [|? ?]]]] [Hy E]; simpl in Hy; try discriminate.
    unfold mat_vec, dot in E; simpl in E.
    injection E as E1 E2 E3.
    assert (Hy2 : y2 = b3 - y1) by lra.
    assert (Hy1 : D * y1 = b1 - b2 + (d2 - c) * b3).
    { unfold D. subst y2. nra. }
    assert (y1 = x1).
    { apply Rmult_eq_reg_l with D; [|exact HD]. now rewrite Hy1, Hx1. }
    subst y1. f_equal. f_equal; [exact (eq_sym Hy2)|]. f_equal. subst y2. lra.
Qed.

(** The scaled points of [x2] are 0 and 5/7. *)
Lemma x2_pair_distance :
  reg_dist alpha8 (nth 0 (map (map (Rmult (exp (ln (1 / 0.7))))) (rows x2)) [])
                  (nth 1 (map (map (Rmult (exp (ln (1 / 0.7))))) (rows x2)) [])
  = sqrt (alpha8 + 25 / 49).
Proof.
  rewrite covparam_invrho. unfold reg_dist, sq_dist. simpl. apply f_equal. lra.
Qed.

Lemma predict_interpolates_witness :
  exists zpv,
    predict (model (L := regularized_lib eps64 alpha8)) x2 [1; 2] x2
    = Ok ([1; 2], zpv) /\
    length zpv = 2%nat /\
    Forall (fun v => Rabs v <= 3e-8) zpv.
Proof.
  assert (Hs := regularized_scale_keeps_rows eps64 alpha8).
  assert (Hd := regularized_distance_shape eps64 alpha8).
  assert (Hy := regularized_distance_symmetric eps64 alpha8).
  assert (Hpos := eps64_pos).
  destruct matern52_self_bounds as [Hlow Hup].
  assert (Hpair := matern52_pair_bound).
  set (K := self_cov (L := regularized_lib eps64 alpha8) 2 (rows x2)
              (exp (ln (0.5 ^ 2))) (exp (ln (1 / 0.7))) (100 * eps64)).
  assert (Hn : length K = 2%nat).
  { destruct (self_cov_shape (L := regularized_lib eps64 alpha8) 2 (exp (ln (0.5 ^ 2)))
                (exp (ln (1 / 0.7))) (100 * eps64) (rows x2) Hd) as [E _].
    unfold K. rewrite E. apply Hs. }
  assert (Hsym : symmetric K)
    by (now apply (self_cov_symmetric (L := regularized_lib eps64 alpha8))).
  assert (Hdiag : forall i, (i < 2)%nat ->
            entry K i i = 0.25 * matern52 (sqrt 5 * (sqrt 2 * sqrt alpha8)) + 100 * eps64).
  { intros i Hi. apply regularized_self_cov_diag_entry. exact Hi. }
  assert (Hoff : entry K 0 1
                 = 0.25 * matern52 (sqrt 5 * (sqrt 2 * sqrt (alpha8 + 25 / 49)))).
  { unfold K. rewrite regularized_self_cov_entry by (simpl; lia).
    rewrite x2_pair_distance, covparam_sigma2. simpl. ring. }
  destruct (@predict_interpolates pyarg (model (L := regularized_lib eps64 alpha8)) x2
              [1; 2] K (repeat (exp (ln (0.5 ^ 2))) (shape0 x2)) 3e-8)
    as [zpv [Hp [Hl [_ Hf]]]].
  - reflexivity.
  - simpl model_kernel. unfold covparam. rewrite kernel_self.
    now apply (kernel_ii_full (L := regularized_lib eps64 alpha8)).
  - simpl model_kernel. unfold covparam. rewrite kernel_self.
    apply (kernel_ii_pairwise (L := regularized_lib eps64 alpha8)).
  - exact Hn.
  - exact Hsym.
  - apply repeat_length.
  - intros i Hi. change (shape0 x2) with 2%nat in *.
    rewrite Hdiag, nth_repeat_lt, covparam_sigma2 by exact Hi.
    unfold eps64 in *. apply Rabs_le. lra.
  - simpl model_mean. change (constant_mean x2 PyNone) with (Some [[1]; [1]]).
    split.
    + split; [reflexivity|]. repeat constructor.
    + rewrite (mat_2x2 (k := K)) by (rewrite <- Hn at 1 2; now apply symmetric_shape).
      rewrite <- (symmetric_entry (a := K) (i := 0%nat) 1%nat Hsym) by (rewrite Hn; lia).
      apply nonsingular_block_two_points.
      rewrite !Hdiag, Hoff by lia. unfold eps64 in *. lra.
  - exists zpv. repeat split; assumption.
Defined.
